(** * cmfpy.nlmetric: the neutral-line metric pipeline

    A shallow embedding of [cmfpy/nlmetric/__init__.py] and the proofs of
    its specification.

    Numbers.  A numpy float is modelled as [value]: either [NaN] or a finite
    rational [Fin q].  Arithmetic on finite values is exact (no rounding) and
    infinities are not represented; every property below is about NaN
    propagation, counting, ordering and sign, none is about rounding.

    Time.  A [datetime] is represented by its unix time, a rational number of
    seconds; a [timedelta] is a rational number of seconds.

    Exceptions.  A Python call that can raise returns a [result]. *)

From Stdlib Require Import String List ZArith QArith Qround Qabs Bool Lia Lqa Sorted.
Import ListNotations.
Local Open Scope Q_scope.

(** ** Python exceptions *)

Inductive exn : Type := IndexError | ValueError | TypeError.

Inductive result (A : Type) : Type :=
| Ok (a : A)
| Raise (e : exn).
Arguments Ok {A} a.
Arguments Raise {A} e.

Definition bind {A B : Type} (r : result A) (k : A -> result B) : result B :=
  match r with
  | Ok a => k a
  | Raise e => Raise e
  end.

Declare Scope py_scope.
Delimit Scope py_scope with py.
Notation "x <- e ;; k" := (bind e (fun x => k))
  (at level 61, e at next level, right associativity) : py_scope.
Notation "' ( x , y ) <- e ;; k" := (bind e (fun xy => let '(x, y) := xy in k))
  (at level 61, x name, y name, e at next level, right associativity) : py_scope.
Local Open Scope py_scope.

Definition raises {A : Type} (r : result A) : Prop :=
  exists e, r = Raise e.

(** ** numpy values and array primitives *)

Module Np.

Inductive value : Type :=
| NaN
| Fin (q : Q).

Definition isnan (v : value) : bool :=
  match v with NaN => true | Fin _ => false end.

(** Equality of values up to the representation of a rational. *)
Definition veq (a b : value) : Prop :=
  match a, b with
  | NaN, NaN => True
  | Fin p, Fin q => p == q
  | _, _ => False
  end.

Definition vopp (a : value) : value :=
  match a with NaN => NaN | Fin p => Fin (- p) end.

Definition vadd (a b : value) : value :=
  match a, b with Fin p, Fin q => Fin (p + q) | _, _ => NaN end.

Definition vsub (a b : value) : value :=
  match a, b with Fin p, Fin q => Fin (p - q) | _, _ => NaN end.

Definition vmul (a b : value) : value :=
  match a, b with Fin p, Fin q => Fin (p * q) | _, _ => NaN end.

(** [np.sign]: -1, 0 or +1, NaN kept. *)
Definition qsign (q : Q) : Q :=
  match q ?= 0 with
  | Lt => -1 # 1
  | Eq => 0
  | Gt => 1
  end.

Definition sign (v : value) : value :=
  match v with
  | NaN => NaN
  | Fin q => Fin (qsign q)
  end.

(** The mask [a == 1]; a comparison with NaN is false. *)
Definition eq_one (v : value) : bool :=
  match v with NaN => false | Fin q => Qeq_bool q 1 end.

(** [np.nansum]: NaN counts as zero, the empty sum is 0. *)
Fixpoint nansum (a : list value) : value :=
  match a with
  | [] => Fin 0
  | NaN :: r => nansum r
  | Fin q :: r => vadd (Fin q) (nansum r)
  end.

(** A float divided by a Python int.  [0.0 / 0] is NaN (with a warning, not
    an exception); a non-zero numerator over 0 would be an infinity, which
    [value] does not have: no caller below can reach that case. *)
Definition true_divide (v : value) (n : nat) : value :=
  match v, n with
  | NaN, _ => NaN
  | Fin _, O => NaN
  | Fin q, S _ => Fin (q / inject_Z (Z.of_nat n))
  end.

Fixpoint map2 {A B C : Type} (f : A -> B -> C) (a : list A) (b : list B) : list C :=
  match a, b with
  | x :: a', y :: b' => f x y :: map2 f a' b'
  | _, _ => []
  end.

(** An elementwise binary operation on two 1-D arrays, with numpy's
    broadcasting: equal lengths, or one operand of length one; any other pair
    of shapes raises. *)
Definition broadcast {A B C : Type} (f : A -> B -> C) (a : list A) (b : list B)
  : result (list C) :=
  if Nat.eqb (length a) (length b) then Ok (map2 f a b)
  else match a, b with
       | [x], _ => Ok (map (f x) b)
       | _, [y] => Ok (map (fun x => f x y) a)
       | _, _ => Raise ValueError
       end.

Definition multiply : list value -> list value -> result (list value) :=
  broadcast vmul.

Definition subtract : list Q -> list Q -> result (list Q) :=
  broadcast Qminus.

(** [x % m] on floats: the remainder has the sign of the divisor. *)
Definition fmod (x m : Q) : Q :=
  x - inject_Z (Qfloor (x / m)) * m.

Definition Qltb (a b : Q) : bool := negb (Qle_bool b a).

(** [np.diff]: [out[i] = a[i+1] - a[i]]. *)
Definition diff (a : list Q) : list Q :=
  map2 Qminus (tl a) a.

(** [np.where(mask)[0]]: the indices at which the mask is true. *)
Fixpoint where_from (i : nat) (mask : list bool) : list nat :=
  match mask with
  | [] => []
  | b :: r => (if b then [i] else []) ++ where_from (S i) r
  end.

Definition where_ (mask : list bool) : list nat := where_from 0 mask.

(** [a[inds]] for an integer index array. *)
Fixpoint take {A : Type} (a : list A) (inds : list nat) : result (list A) :=
  match inds with
  | [] => Ok []
  | i :: r =>
      match nth_error a i with
      | None => Raise IndexError
      | Some x => xs <- take a r ;; Ok (x :: xs)
      end
  end.

(** [a[st:en]] for non-negative bounds. *)
Definition slice {A : Type} (a : list A) (st en : nat) : list A :=
  firstn (en - st) (skipn st a).

(** [np.split(a, indices)]: cut at [0, i1, ..., ik, len(a)]. *)
Fixpoint split_from {A : Type} (a : list A) (st : nat) (indices : list nat)
  : list (list A) :=
  match indices with
  | [] => [slice a st (length a)]
  | i :: r => slice a st i :: split_from a i r
  end.

Definition split {A : Type} (a : list A) (indices : list nat) : list (list A) :=
  split_from a 0 indices.

(** Sorting of finite numbers, for the median. *)
Fixpoint insert_sorted (q : Q) (l : list Q) : list Q :=
  match l with
  | [] => [q]
  | h :: t => if Qle_bool q h then q :: h :: t else h :: insert_sorted q t
  end.

Fixpoint sort (l : list Q) : list Q :=
  match l with
  | [] => []
  | q :: t => insert_sorted q (sort t)
  end.

Fixpoint finite_part (a : list value) : list Q :=
  match a with
  | [] => []
  | NaN :: r => finite_part r
  | Fin q :: r => q :: finite_part r
  end.

(** [np.nanmedian] of a flattened array: the median of the non-NaN entries,
    NaN when there is none (an empty or all-NaN slice only warns). *)
Definition nanmedian (a : list value) : value :=
  let s := sort (finite_part a) in
  let n := length s in
  match s with
  | [] => NaN
  | _ :: _ =>
      if Nat.even n
      then Fin ((nth (n / 2 - 1) s 0 + nth (n / 2) s 0) / 2)
      else Fin (nth (n / 2) s 0)
  end.

(** A 1-D or a 2-D array of floats. *)
Inductive ndarray : Type :=
| Arr1 (a : list value)
| Arr2 (rows : list (list value)).

(** The entries along axis 0, each flattened. *)
Definition rows (a : ndarray) : list (list value) :=
  match a with
  | Arr1 l => map (fun v => [v]) l
  | Arr2 r => r
  end.

(** [a[:,0]]. *)
Definition column0 (a : ndarray) : result (list value) :=
  match a with
  | Arr1 _ => Raise IndexError
  | Arr2 r =>
      (fix go (r : list (list value)) : result (list value) :=
         match r with
         | [] => Ok []
         | row :: r' => v <- match row with [] => Raise IndexError | v :: _ => Ok v end ;;
                        vs <- go r' ;; Ok (v :: vs)
         end) r
  end.

(** [a[0]] and [a[-1]]. *)
Definition first {A : Type} (a : list A) : result A :=
  match a with
  | [] => Raise IndexError
  | x :: _ => Ok x
  end.

Fixpoint last {A : Type} (a : list A) : result A :=
  match a with
  | [] => Raise IndexError
  | [x] => Ok x
  | _ :: r => last r
  end.

End Np.

(** ** scipy.interpolate.interp1d, linear, with [bounds_error=False] *)

Module Scipy.
Import Np.

(** The points are sorted by abscissa first ([assume_sorted=False]). *)
Fixpoint insert_by_x (p : Q * value) (l : list (Q * value)) : list (Q * value) :=
  match l with
  | [] => [p]
  | h :: t => if Qltb (fst h) (fst p) then h :: insert_by_x p t else p :: h :: t
  end.

Fixpoint sort_by_x (l : list (Q * value)) : list (Q * value) :=
  match l with
  | [] => []
  | p :: t => insert_by_x p (sort_by_x t)
  end.

(** [slope*(t - x0) + y0] with [slope = (y1 - y0)/(x1 - x0)]. *)
Definition lerp (x0 : Q) (y0 : value) (x1 : Q) (y1 : value) (t : Q) : value :=
  match y0, y1 with
  | Fin a, Fin b => Fin ((b - a) / (x1 - x0) * (t - x0) + a)
  | _, _ => NaN
  end.

(** The interpolant at an in-range [t]: the segment [x_j <= t < x_(j+1)] is
    looked up, a [t] that is a node (the last one too) gets the node's
    ordinate. *)
Fixpoint interp (pts : list (Q * value)) (t : Q) : value :=
  match pts with
  | [] => NaN
  | (x0, y0) :: rest =>
      match rest with
      | [] => y0
      | (x1, y1) :: _ =>
          if Qle_bool x1 t then interp rest t
          else if Qeq_bool x0 t then y0
          else lerp x0 y0 x1 y1 t
      end
  end.

(** [interp1d(x, y, bounds_error=False, fill_value=fill_value)(x_new)]: the
    constructor rejects arrays of different lengths and empty arrays; a
    lookup below the least or above the greatest abscissa gives
    [fill_value]. *)
Definition evaluate (p0 : Q * value) (rest : list (Q * value))
  (fill_value : value) (t : Q) : value :=
  let pts := p0 :: rest in
  let lo := fst p0 in
  let hi := fst (List.last pts p0) in
  if Qltb t lo || Qltb hi t then fill_value else interp pts t.

Definition interp1d (x : list Q) (y : list value) (fill_value : value)
  (x_new : list Q) : result (list value) :=
  if negb (Nat.eqb (length x) (length y)) then Raise ValueError
  else
    match sort_by_x (combine x y) with
    | [] => Raise ValueError
    | p0 :: rest => Ok (map (evaluate p0 rest fill_value) x_new)
    end.

End Scipy.

(** ** cmfpy.nlmetric *)

Import Np Scipy.

Definition days (d : Q) : Q := d * 86400.
Definition hours (h : Q) : Q := h * 3600.

(** Modelled from the spec: [cmfpy.utils.datetime2unix] is not part of this
    module.  A TimePoint is represented by its unix time already, so the
    conversion of an array of datetimes is the identity. *)
Definition datetime2unix (dts : list Q) : list Q := dts.

(** One tplot variable, [{'x': times, 'y': samples}]. *)
Record tplot : Type := { x : list Q; y : ndarray }.

(** What [create_polarity_model] returns: the series, and the radial speeds
    too under [return_vr]. *)
Inductive model_output : Type :=
| Series (s : list Q * list value)
| SeriesVr (s : list Q * list value) (vr_arr : option (list value)).

Fixpoint mapM {A B : Type} (f : A -> result B) (l : list A) : result (list B) :=
  match l with
  | [] => Ok []
  | a :: r => b <- f a ;; bs <- mapM f r ;; Ok (b :: bs)
  end.

(** [inst_antipode = (lon.value + 180 % 360)]: Python's [%] binds tighter
    than [+], so the remainder is taken of the integer literal 180. *)
Definition inst_antipode (inst_lon : list Q) : list Q :=
  map (fun l => l + inject_Z (180 mod 360)) inst_lon.

(** [np.where(np.diff(d) > 180)[0] + 1]. *)
Definition carr_inds (d : list Q) : list nat :=
  map S (where_ (map (fun j => Qltb 180 j) (diff d))).

(** [mult = obs_pol*model_pol; np.nansum(mult[mult == 1])/len(~np.isnan(mult))]. *)
Definition NL_score (mult : list value) : value :=
  true_divide (nansum (filter eq_one mult))
              (length (map (fun v => negb (isnan v)) mult)).

(** [data[list(data.keys())[0]]]. *)
Definition first_variable (data : list (string * tplot)) : result tplot :=
  kv <- first data ;; Ok (snd kv).

Section Pipeline.

(** The collaborators of the module, which live in [cmfpy.utils],
    [cmfpy.projection], [cmfpy.io] and [sunpy]. *)
Variable gen_dt_arr : Q -> Q -> Q -> list Q.
Variable SkyCoord : Type.
Variable create_carrington_trajectory : list Q -> string -> option Q -> SkyCoord.
Variable lon : SkyCoord -> list Q.
Variable download_br_data : list Q -> string -> list (string * tplot).
Variable download_vr_data : list Q -> string -> list (string * tplot).
Variable ballistically_project : SkyCoord -> Q -> option (list value) -> SkyCoord.
Variable NLMap : Type.
Variable sample_at_coords : NLMap -> SkyCoord -> list value.

(** [utils.gen_dt_arr( *carrington_interval, cadence_days=c)]: the interval is
    unpacked into the two positional arguments. *)
Definition gen_dt_arr_unpacked (carrington_interval : list Q) (c : Q)
  : result (list Q) :=
  match carrington_interval with
  | [t_start; t_end] => Ok (gen_dt_arr t_start t_end c)
  | _ => Raise TypeError
  end.

Definition determine_carrington_interval (center_date : Q) (body : string)
  : result (list Q) :=
  let inst_body_position := create_carrington_trajectory [center_date] body None in
  let inst_antipode := inst_antipode (lon inst_body_position) in
  let two_month_window :=
    gen_dt_arr (center_date - days 30) (center_date + days 30) (6 / 24) in
  let two_month_trajectory :=
    create_carrington_trajectory two_month_window body None in
  delta <- subtract (lon two_month_trajectory) inst_antipode ;;
  let carr_inds := carr_inds (map (fun d => fmod d 360) delta) in
  take two_month_window carr_inds.

Definition make_hourly_medians (datetimes : list Q) (data : ndarray)
  : result (list Q * list value) :=
  let timestamps := datetimes in
  t_first <- first datetimes ;;
  t_last <- last datetimes ;;
  let datetime_hourly := gen_dt_arr t_first t_last (1 / 24) in
  let ts_edges := removelast (tl datetime_hourly) in
  argsplit <- mapM (fun te => first (where_ (map (fun t => Qltb te t) timestamps)))
                   ts_edges ;;
  let data_split := split (rows data) argsplit in
  let medians := map (fun slice_ => nanmedian (concat slice_)) data_split in
  Ok (map (fun t => t + hours (1 / 2)) (removelast datetime_hourly), medians).

Definition create_polarity_obs (center_date : Q) (body : string) (return_br : bool)
  : result (list Q * list value) :=
  carrington_interval <- determine_carrington_interval center_date body ;;
  let data := download_br_data carrington_interval body in
  '(times_medians, br_medians) <-
    (if String.eqb body "L1" then
       v <- first_variable data ;;
       '(times_medians, br_medians) <- make_hourly_medians (x v) (y v) ;;
       Ok (times_medians, map (fun b => vmul b (Fin (-1 # 1))) br_medians)
     else
       v <- first_variable data ;;
       y0 <- column0 (y v) ;;
       make_hourly_medians (x v) (Arr1 y0)) ;;
  datetimes_hourly <- gen_dt_arr_unpacked carrington_interval (1 / 24) ;;
  br_hourly <- interp1d (datetime2unix times_medians) br_medians NaN
                        (datetime2unix datetimes_hourly) ;;
  if return_br then Ok (datetimes_hourly, br_hourly)
  else Ok (datetimes_hourly, map sign br_hourly).

(** Lines 151-157: the NaN medians are dropped, the rest is interpolated onto
    the hourly grid with [fill_value=360]. *)
Definition vr_on_grid (times_medians : list Q) (vr_medians : list value)
  (datetimes_hourly : list Q) : result (list value) :=
  let nan_filt := where_ (map (fun v => negb (isnan v)) vr_medians) in
  vr_medians' <- take vr_medians nan_filt ;;
  times_medians' <- take times_medians nan_filt ;;
  interp1d (datetime2unix times_medians') vr_medians' (Fin 360)
           (datetime2unix datetimes_hourly).

Definition create_polarity_model (model_NL_map : NLMap) (center_date : Q)
  (body : string) (constant_vr : bool) (altitude : Q) (return_vr : bool)
  : result model_output :=
  carrington_interval <- determine_carrington_interval center_date body ;;
  datetimes_hourly <- gen_dt_arr_unpacked carrington_interval (1 / 24) ;;
  vr_arr <-
    (if constant_vr then Ok None
     else
       let data := download_vr_data carrington_interval body in
       '(times_medians, vr_medians) <-
         (if String.eqb body "L1" then
            v <- first_variable data ;;
            '(times_medians, vr_medians) <- make_hourly_medians (x v) (y v) ;;
            Ok (times_medians, map (fun b => vmul b (Fin (-1 # 1))) vr_medians)
          else if String.eqb body "stereo-a" || String.eqb body "stereo-b" then
            v <- first_variable data ;;
            make_hourly_medians (x v) (y v)
          else
            v <- first_variable data ;;
            y0 <- column0 (y v) ;;
            make_hourly_medians (x v) (Arr1 y0)) ;;
       vr <- vr_on_grid times_medians vr_medians datetimes_hourly ;;
       Ok (Some vr)) ;;
  let carrington_trajectory :=
    create_carrington_trajectory datetimes_hourly body (Some center_date) in
  let projected_trajectory :=
    ballistically_project carrington_trajectory altitude vr_arr in
  let polarity_modeled := sample_at_coords model_NL_map projected_trajectory in
  if return_vr then Ok (SeriesVr (datetimes_hourly, polarity_modeled) vr_arr)
  else Ok (Series (datetimes_hourly, polarity_modeled)).

End Pipeline.

(** Lines 177-186: the polarity of both series, the observed one resampled
    when the grids differ in length, first or last timestamp. *)
Definition needs_resampling (model_tstamps obs_tstamps : list Q) : result bool :=
  m0 <- first model_tstamps ;;
  o0 <- first obs_tstamps ;;
  mN <- last model_tstamps ;;
  oN <- last obs_tstamps ;;
  Ok (negb (Nat.eqb (length model_tstamps) (length obs_tstamps))
      || negb (Qeq_bool m0 o0)
      || negb (Qeq_bool mN oN)).

Definition aligned_obs_pol (model_tseries obs_tseries : list Q * list value)
  : result (list value) :=
  let model_tstamps := datetime2unix (fst model_tseries) in
  let obs_tstamps := datetime2unix (fst obs_tseries) in
  let obs_pol := map sign (snd obs_tseries) in
  c <- needs_resampling model_tstamps obs_tstamps ;;
  if c then interp1d obs_tstamps obs_pol NaN model_tstamps
  else Ok obs_pol.

Definition compute_NL_metric (model_tseries obs_tseries : list Q * list value)
  : result value :=
  let model_pol := map sign (snd model_tseries) in
  obs_pol <- aligned_obs_pol model_tseries obs_tseries ;;
  mult <- multiply obs_pol model_pol ;;
  Ok (NL_score mult).

(** ** The specification's wording of three steps, for comparison *)

(** The score as the specification words it: the number of product entries
    equal to +1 over the number of non-NaN product entries. *)
Definition spec_score (mult : list value) : value :=
  true_divide (Fin (inject_Z (Z.of_nat (length (filter eq_one mult)))))
              (length (filter (fun v => negb (isnan v)) mult)).

(** The antipode as the specification words it: [(longitude + 180) mod 360]. *)
Definition spec_antipode (longitude : Q) : Q :=
  fmod (longitude + 180) 360.

(** The alignment as the specification words it: the raw observed values are
    interpolated onto the model grid, the sign is taken afterwards. *)
Definition spec_aligned_obs_pol (model_tseries obs_tseries : list Q * list value)
  : result (list value) :=
  let model_tstamps := datetime2unix (fst model_tseries) in
  let obs_tstamps := datetime2unix (fst obs_tseries) in
  c <- needs_resampling model_tstamps obs_tstamps ;;
  if c then
    raw <- interp1d obs_tstamps (snd obs_tseries) NaN model_tstamps ;;
    Ok (map sign raw)
  else Ok (map sign (snd obs_tseries)).

(** ** Instances of the collaborators, for the examples *)

Module Demo.

Fixpoint arith_seq (n : nat) (t step : Q) : list Q :=
  match n with
  | O => []
  | S n' => t :: arith_seq n' (t + step) step
  end.

(** A time grid [dt_init, dt_init + c, ...] that stops before [dt_final]. *)
Definition gen_dt_arr (dt_init dt_final cadence_days : Q) : list Q :=
  arith_seq (Z.to_nat (Qceiling ((dt_final - dt_init) / days cadence_days)))
            (Qred dt_init) (Qred (days cadence_days)).

(** A body whose Carrington longitude falls by [rate] degrees a day from
    [lon0] at time 0; the trajectory is the array of its longitudes. *)
Definition trajectory (lon0 rate : Q) (times : list Q) (body : string)
  (obstime_ref : option Q) : list Q :=
  map (fun t => Qred (fmod (lon0 - rate * (t / 86400)) 360)) times.

Definition lon (c : list Q) : list Q := c.

(** Scalar samples every [step] seconds from [t0]. *)
Definition samples (t0 step : Q) (ys : list value) : list (string * tplot) :=
  [("br"%string, {| x := arith_seq (length ys) t0 step; y := Arr1 ys |})].

Definition vector_samples (t0 step : Q) (ys : list value) : list (string * tplot) :=
  [("b_rtn"%string,
    {| x := arith_seq (length ys) t0 step;
       y := Arr2 (map (fun v => [v; Fin 0; Fin 0]) ys) |})].

(** Samples every 20 minutes over four hours; the second hour is all NaN. *)
Definition reducer_times : list Q := arith_seq 13 0 1200.

Definition reducer_values : ndarray :=
  Arr1 [Fin 4; Fin 1; NaN; Fin 3;
        NaN; NaN; NaN;
        Fin (-2); Fin (-5); NaN; Fin 7; Fin 0; Fin 1].

(** A field that changes sign every 80 samples, with gaps. *)
Definition field (n : nat) : list value :=
  map (fun k => if Nat.eqb (k mod 47) 5 then NaN
                else Fin (inject_Z (Z.of_nat (k mod 160)) - 80)) (seq 0 n).

(** The download of the field, sampled every 30 minutes from the start of
    the interval: scalar samples for L1, vector samples otherwise. *)
Definition download_br_data (interval : list Q) (body : string)
  : list (string * tplot) :=
  if String.eqb body "L1" then samples (hd 0 interval) 1800 (field 1309)
  else vector_samples (hd 0 interval) 1800 (field 1309).

(** Two values are both NaN, or the same number. *)
Definition same (a b : value) : bool :=
  match a, b with
  | NaN, NaN => true
  | Fin p, Fin q => Qeq_bool p q
  | _, _ => false
  end.

Definition get {A : Type} (d : A) (r : result A) : A :=
  match r with Ok a => a | Raise _ => d end.

(** The same field sampled every six hours only. *)
Definition sparse_download (interval : list Q) (body : string)
  : list (string * tplot) :=
  if String.eqb body "L1" then samples (hd 0 interval) 21600 (field 110)
  else vector_samples (hd 0 interval) 21600 (field 110).

(** Radial speeds between 300 and 459 km/s every six hours, with gaps. *)
Definition download_vr_data (interval : list Q) (body : string)
  : list (string * tplot) :=
  vector_samples (hd 0 interval) 21600
    (map (fun v => match v with NaN => NaN | Fin q => Fin (q + 380) end) (field 110)).

(** A projector that leaves the trajectory where it is and a map whose
    neutral line is the meridian at 180 degrees. *)
Definition ballistically_project (c : list Q) (r_inner : Q)
  (vr_arr : option (list value)) : list Q := c.

Definition sample_at_coords (model_NL_map : unit) (c : list Q) : list value :=
  map (fun l => if Qltb l 180 then Fin 1 else Fin (-1 # 1)) c.

(** The builders on an Earth-like body, a slowly drifting one, and with a
    download that returns nothing. *)
Definition earth := trajectory 100 (66 # 5).

Definition obs_builder :=
  create_polarity_obs gen_dt_arr (list Q) earth lon sparse_download.

Definition model_builder :=
  create_polarity_model gen_dt_arr (list Q) earth lon download_vr_data
                        ballistically_project unit sample_at_coords.

Definition no_download (interval : list Q) (body : string)
  : list (string * tplot) := [].

(** Hourly medians of the speed with gaps, and an hourly grid around them. *)
Definition speed_times : list Q := [1800; 5400; 9000; 12600; 16200].

Definition speed_medians : list value := [NaN; Fin 400; NaN; Fin 500; NaN].

Definition speed_grid : list Q := [0; 3600; 7200; 10800; 14400; 18000].

(** A speed download in which every sample is missing. *)
Definition download_nan_vr (interval : list Q) (body : string)
  : list (string * tplot) :=
  vector_samples (hd 0 interval) 21600 (map (fun _ => NaN) (seq 0 110)).

(** A field that climbs from -4 to 4 in hourly steps and falls back, sampled
    every 30 minutes over the first hundred hours of the interval, and the
    observed-series builder on it. *)
Definition steps (n : nat) : list value :=
  map (fun k => Fin (inject_Z (Z.of_nat (((k + 1) / 2) mod 9)) - 4)) (seq 0 n).

Definition short_download (interval : list Q) (body : string)
  : list (string * tplot) :=
  if String.eqb body "L1" then samples (hd 0 interval) 1800 (steps 200)
  else vector_samples (hd 0 interval) 1800 (steps 200).

Definition short_obs_builder :=
  create_polarity_obs gen_dt_arr (list Q) earth lon short_download.

End Demo.

(** ** Predicates used in the statements *)

(** [i] is the first index whose timestamp exceeds the edge [te]. *)
Definition first_exceeding (timestamps : list Q) (te : Q) (i : nat) : Prop :=
  (exists t, nth_error timestamps i = Some t /\ te < t)
  /\ forall j t, (j < i)%nat -> nth_error timestamps j = Some t -> t <= te.

(** Points ordered by strictly increasing abscissa. *)
Definition by_x (p q : Q * value) : Prop := fst p < fst q.

(** [t] is a timestamp of an hourly median that is not NaN. *)
Definition valid_time (times_medians : list Q) (vr_medians : list value) (t : Q)
  : Prop :=
  exists j v, nth_error times_medians j = Some t
              /\ nth_error vr_medians j = Some (Fin v).

(** [t] lies below every valid timestamp, or above every one. *)
Definition out_of_range (times_medians : list Q) (vr_medians : list value) (t : Q)
  : Prop :=
  (forall u, valid_time times_medians vr_medians u -> t < u)
  \/ (forall u, valid_time times_medians vr_medians u -> u < t).

(** The same points with [g] applied to the ordinates; multiplication by -1. *)
Definition on_snd (g : value -> value) (p : Q * value) : Q * value :=
  (fst p, g (snd p)).

Definition negated (b : value) : value := vmul b (Fin (-1 # 1)).

(** Both values are present and have the same non-zero sign. *)
Definition agree (m o : value) : bool :=
  match m, o with
  | Fin a, Fin b => (Qltb 0 a && Qltb 0 b) || (Qltb a 0 && Qltb b 0)
  | _, _ => false
  end.

(** The number of indices at which the two arrays agree. *)
Definition agreements (model_values obs_values : list value) : nat :=
  length (filter (fun p => agree (fst p) (snd p)) (combine model_values obs_values)).

(** The series of a [create_polarity_model] result. *)
Definition output_series (out : model_output) : list Q * list value :=
  match out with
  | Series s => s
  | SeriesVr s _ => s
  end.

(** A polarity: NaN, -1, 0 or +1. *)
Definition is_polarity (v : value) : Prop :=
  v = NaN \/ v = Fin (-1 # 1) \/ v = Fin 0 \/ v = Fin 1.

(** Points ordered by non-decreasing abscissa. *)
Definition le_x (p q : Q * value) : Prop := fst p <= fst q.

(** Every value of the array that is present lies between [-B] and [B]. *)
Definition bounded (B : Q) (a : ndarray) : bool :=
  forallb (forallb (fun v => match v with
                             | NaN => true
                             | Fin u => Qle_bool (- B) u && Qle_bool u B
                             end)) (rows a).

(** The number of values of [l] that are at most [m], and at least [m]. *)
Definition count_le (m : Q) (l : list Q) : nat :=
  length (filter (fun u => Qle_bool u m) l).

Definition count_ge (m : Q) (l : list Q) : nat :=
  length (filter (fun u => Qle_bool m u) l).


(** * Properties *)

(** ** Values *)

Lemma vmul_comm (a b : value) : vmul a b = vmul b a.
Proof.
  destruct a as [|[p1 p2]], b as [|[q1 q2]]; simpl; try reflexivity.
  unfold Qmult; simpl. now rewrite Z.mul_comm, Pos.mul_comm.
Qed.

Lemma vmul_nan_l (a b : value) : isnan a = true -> vmul a b = NaN.
Proof. destruct a; simpl; [reflexivity | discriminate]. Qed.

Lemma vmul_nan_r (a b : value) : isnan b = true -> vmul a b = NaN.
Proof. destruct a, b; simpl; try reflexivity; discriminate. Qed.

Lemma sign_isnan (v : value) : isnan (sign v) = isnan v.
Proof. now destruct v. Qed.

Lemma map2_comm {A B : Type} (f : A -> A -> B) (a b : list A) :
  (forall u v, f u v = f v u) -> map2 f a b = map2 f b a.
Proof.
  intros Hf. revert b. induction a as [|u a IH]; intros [|v b]; simpl; try reflexivity.
  now rewrite Hf, IH.
Qed.

Lemma multiply_comm (a b : list value) : multiply a b = multiply b a.
Proof.
  unfold multiply, broadcast. rewrite (Nat.eqb_sym (length b)).
  destruct (Nat.eqb (length a) (length b)) eqn:E.
  - f_equal. apply map2_comm, vmul_comm.
  - destruct a as [|u [|u' a]], b as [|v [|v' b]]; simpl in E |- *;
      try discriminate; try reflexivity;
      rewrite ?(vmul_comm u), ?(vmul_comm u');
      do 3 (try apply f_equal); try reflexivity;
      apply map_ext; intros; apply vmul_comm.
Qed.

(** ** The scorer *)

Lemma needs_resampling_sym (a b : list Q) (c : bool) :
  needs_resampling a b = Ok c -> needs_resampling b a = Ok c.
Proof.
  unfold needs_resampling.
  destruct (first a) as [a0|] eqn:Ea; simpl; [|discriminate].
  destruct (first b) as [b0|] eqn:Eb; simpl; [|discriminate].
  destruct (last a) as [aN|] eqn:La; simpl; [|discriminate].
  destruct (last b) as [bN|] eqn:Lb; simpl; [|discriminate].
  intros H; injection H as <-. f_equal.
  rewrite (Nat.eqb_sym (length b)).
  assert (Hq : forall p q, Qeq_bool p q = Qeq_bool q p).
  { intros p q. destruct (Qeq_bool p q) eqn:E1, (Qeq_bool q p) eqn:E2; try reflexivity.
    - apply Qeq_bool_iff in E1. symmetry in E1. apply Qeq_bool_iff in E1. congruence.
    - apply Qeq_bool_iff in E2. symmetry in E2. apply Qeq_bool_iff in E2. congruence. }
  now rewrite (Hq b0), (Hq bN).
Qed.

Lemma NL_score_denominator (mult : list value) :
  NL_score mult = true_divide (nansum (filter eq_one mult)) (length mult).
Proof. unfold NL_score. now rewrite length_map. Qed.

Lemma nansum_all_nan (a : list value) :
  Forall (fun v => isnan v = true) a -> nansum (filter eq_one a) = Fin 0.
Proof.
  induction 1 as [|v a Hv _ IH]; simpl; [reflexivity|].
  destruct v; [simpl; exact IH | discriminate].
Qed.

(** C1.  On [model = [1, 1]], [obs = [2, NaN]] over the same two timestamps
    the product is [[1, NaN]]: the scorer divides the one agreeing entry by
    [len] of the negated NaN mask, which is the length 2 of the whole array,
    and returns 1/2; the count of agreeing entries over the count of non-NaN
    entries is 1/1. *)
Theorem compute_NL_metric_counts_nan_in_denominator :
  let model := ([0; 3600], [Fin 1; Fin 1]) in
  let obs := ([0; 3600], [Fin 2; NaN]) in
  multiply (map sign (snd obs)) (map sign (snd model)) = Ok [Fin 1; NaN]
  /\ compute_NL_metric model obs = Ok (Fin (1 # 2))
  /\ spec_score [Fin 1; NaN] = Fin 1
  /\ ~ (1 # 2 == 1).
Proof. repeat split. intros H; discriminate H. Qed.

(** C6 as stated fails: with no comparable entry at all (every product entry
    is NaN) the scorer raises nothing and silently returns zero. *)
Lemma compute_NL_metric_all_nan_returns :
  let model := ([0; 3600], [NaN; NaN]) in
  let obs := ([0; 3600], [Fin 2; Fin (-3)]) in
  multiply (map sign (snd obs)) (map sign (snd model)) = Ok [NaN; NaN]
  /\ compute_NL_metric model obs = Ok (Fin (0 # 2))
  /\ ~ raises (compute_NL_metric model obs).
Proof. repeat split. intros [e H]; discriminate H. Qed.

(** C6, amended.  When no index carries a value in both series (the series
    being on a common non-empty grid), the scorer raises no error: it
    returns the score of a product array that is NaN throughout, the sum of
    whose agreeing entries is zero. *)
Theorem compute_NL_metric_no_comparable_entries
  (model_tseries obs_tseries : list Q * list value) :
  needs_resampling (fst model_tseries) (fst obs_tseries) = Ok false ->
  Forall2 (fun m o => isnan m = true \/ isnan o = true)
          (snd model_tseries) (snd obs_tseries) ->
  exists mult,
    compute_NL_metric model_tseries obs_tseries = Ok (NL_score mult)
    /\ length mult = length (snd model_tseries)
    /\ Forall (fun v => isnan v = true) mult
    /\ nansum (filter eq_one mult) = Fin 0.
Proof.
  destruct model_tseries as [mt mv], obs_tseries as [ot ov]; simpl.
  intros Hc Hnan.
  exists (map2 vmul (map sign ov) (map sign mv)).
  assert (Hlen : length ov = length mv).
  { clear Hc. induction Hnan; simpl; congruence. }
  assert (Hall : Forall (fun v => isnan v = true) (map2 vmul (map sign ov) (map sign mv))).
  { clear Hc Hlen. induction Hnan as [|m o mv ov [Hm|Ho] _ IH]; simpl; constructor; try exact IH.
    - rewrite vmul_nan_r; [reflexivity | now rewrite sign_isnan].
    - rewrite vmul_nan_l; [reflexivity | now rewrite sign_isnan]. }
  repeat split.
  - unfold compute_NL_metric, aligned_obs_pol, datetime2unix; simpl.
    rewrite Hc; simpl. unfold multiply, broadcast.
    rewrite !length_map, Hlen, Nat.eqb_refl. reflexivity.
  - clear Hc Hall Hlen. induction Hnan; simpl; congruence.
  - exact Hall.
  - apply nansum_all_nan, Hall.
Qed.

Lemma compute_NL_metric_no_comparable_entries_witness :
  exists mult,
    compute_NL_metric ([0; 3600], [NaN; Fin 1]) ([0; 3600], [Fin 2; NaN])
    = Ok (NL_score mult)
    /\ length mult = 2%nat
    /\ Forall (fun v => isnan v = true) mult
    /\ nansum (filter eq_one mult) = Fin 0.
Proof.
  apply (compute_NL_metric_no_comparable_entries
           ([0; 3600], [NaN; Fin 1]) ([0; 3600], [Fin 2; NaN])).
  - reflexivity.
  - simpl. apply Forall2_cons; [left; reflexivity|].
    apply Forall2_cons; [right; reflexivity|]. apply Forall2_nil.
Defined.

(** C7 as stated fails: the observed argument is resampled onto the grid of
    the model argument, so exchanging series on different grids changes the
    entries that are compared. *)
Lemma compute_NL_metric_not_symmetric :
  let a := ([0; 3600; 7200], [Fin 1; Fin (-1); Fin 1]) in
  let b := ([0; 7200], [Fin 1; Fin 1]) in
  compute_NL_metric a b = Ok (Fin (2 # 3))
  /\ compute_NL_metric b a = Ok (Fin (2 # 2))
  /\ ~ (2 # 3 == 2 # 2)
  /\ compute_NL_metric a b <> compute_NL_metric b a.
Proof. repeat split; intros H; discriminate H. Qed.

(** C7, amended.  On series that need no resampling (equal lengths, equal
    first timestamps, equal last timestamps) the scorer is symmetric. *)
Theorem compute_NL_metric_symmetric_on_common_grid
  (a b : list Q * list value) :
  needs_resampling (fst a) (fst b) = Ok false ->
  compute_NL_metric a b = compute_NL_metric b a.
Proof.
  intros H. pose proof (needs_resampling_sym _ _ _ H) as H'.
  unfold compute_NL_metric, aligned_obs_pol, datetime2unix.
  rewrite H, H'; simpl. now rewrite multiply_comm.
Qed.

Lemma compute_NL_metric_symmetric_on_common_grid_witness :
  compute_NL_metric ([0; 3600; 7200], [Fin 5; Fin (-2); NaN])
                    ([0; 1800; 7200], [Fin (-1); Fin (-4); Fin 3])
  = compute_NL_metric ([0; 1800; 7200], [Fin (-1); Fin (-4); Fin 3])
                      ([0; 3600; 7200], [Fin 5; Fin (-2); NaN]).
Proof.
  apply (compute_NL_metric_symmetric_on_common_grid
           ([0; 3600; 7200], [Fin 5; Fin (-2); NaN])
           ([0; 1800; 7200], [Fin (-1); Fin (-4); Fin 3])).
  reflexivity.
Defined.

(** ** Array primitives *)

Lemma Qltb_lt (a b : Q) : Qltb a b = true <-> a < b.
Proof.
  unfold Qltb. rewrite negb_true_iff. split; intros H.
  - apply Qnot_le_lt. intros Hle. apply Qle_bool_iff in Hle. congruence.
  - destruct (Qle_bool b a) eqn:E; [|reflexivity].
    apply Qle_bool_iff in E. exfalso. now apply (Qlt_not_le a b).
Qed.

Lemma Qltb_ge (a b : Q) : Qltb a b = false <-> b <= a.
Proof.
  unfold Qltb. rewrite negb_false_iff. apply Qle_bool_iff.
Qed.

Lemma where_from_spec (mask : list bool) (s k : nat) :
  In k (where_from s mask)
  <-> exists j, k = (s + j)%nat /\ nth_error mask j = Some true.
Proof.
  revert s. induction mask as [|b mask IH]; intros s; simpl.
  - split; [tauto | intros [[|j] [_ H]]; discriminate H].
  - rewrite in_app_iff, IH. split.
    + intros [H | [j [-> Hj]]].
      * destruct b; simpl in H; [|tauto]. destruct H as [<-|[]].
        exists 0%nat. split; [lia | reflexivity].
      * exists (S j). split; [lia | exact Hj].
    + intros [[|j] [-> Hj]]; simpl in Hj.
      * left. injection Hj as ->. left. lia.
      * right. exists j. split; [lia | exact Hj].
Qed.

Lemma where_from_bound (mask : list bool) (s k : nat) :
  In k (where_from s mask) -> (s <= k < s + length mask)%nat.
Proof.
  rewrite where_from_spec. intros [j [-> Hj]].
  assert (j < length mask)%nat by (apply nth_error_Some; congruence). lia.
Qed.

Lemma nth_error_map2 {A B C : Type} (f : A -> B -> C) (a : list A) (b : list B) (i : nat) :
  nth_error (map2 f a b) i =
  match nth_error a i, nth_error b i with
  | Some u, Some v => Some (f u v)
  | _, _ => None
  end.
Proof.
  revert b i. induction a as [|u a IH]; intros [|v b] [|i]; simpl; try reflexivity.
  - now destruct (nth_error a i).
  - apply IH.
Qed.

Lemma length_map2 {A B C : Type} (f : A -> B -> C) (a : list A) (b : list B) :
  length (map2 f a b) = Nat.min (length a) (length b).
Proof.
  revert b. induction a as [|u a IH]; intros [|v b]; simpl; try reflexivity.
  now rewrite IH.
Qed.

Lemma nth_error_tl {A : Type} (a : list A) (i : nat) :
  nth_error (tl a) i = nth_error a (S i).
Proof. destruct a; simpl; [now destruct i | reflexivity]. Qed.

Lemma length_diff (a : list Q) : length (diff a) = (length a - 1)%nat.
Proof.
  unfold diff. rewrite length_map2. destruct a; simpl; lia.
Qed.

Lemma take_Forall2 {A : Type} (a : list A) (inds : list nat) (l : list A) :
  take a inds = Ok l <-> Forall2 (fun k t => nth_error a k = Some t) inds l.
Proof.
  revert l. induction inds as [|i inds IH]; intros l; simpl.
  - split.
    + intros H; injection H as <-. constructor.
    + intros H; inversion H. reflexivity.
  - destruct (nth_error a i) as [u|] eqn:E.
    + destruct (take a inds) as [xs|e]; simpl.
      * split.
        -- intros H; injection H as <-. constructor; [exact E | now apply IH].
        -- intros H; inversion H as [|? t ? l' Hi Hr]; subst.
           apply IH in Hr. injection Hr as ->. congruence.
      * split; [discriminate|].
        intros H; inversion H as [|? t ? l' Hi Hr]; subst.
        apply IH in Hr. discriminate Hr.
    + split; [discriminate|].
      intros H; inversion H; subst. congruence.
Qed.

Lemma take_in_range {A : Type} (a : list A) (inds : list nat) :
  Forall (fun k => (k < length a)%nat) inds -> exists l, take a inds = Ok l.
Proof.
  induction 1 as [|i inds Hi _ [l IH]]; simpl.
  - now exists [].
  - destruct (nth_error a i) as [u|] eqn:E.
    + rewrite IH. simpl. now exists (u :: l).
    + apply nth_error_None in E. lia.
Qed.

Lemma broadcast_singleton_r {A B C : Type} (f : A -> B -> C) (a : list A) (v : B) :
  broadcast f a [v] = Ok (map (fun u => f u v) a).
Proof.
  unfold broadcast. destruct a as [|u [|u' a]]; reflexivity.
Qed.

(** ** The interval resolver *)

Lemma inst_antipode_plus_180 (inst_lon : list Q) :
  inst_antipode inst_lon = map (fun l => l + 180) inst_lon.
Proof. reflexivity. Qed.

Lemma Qfloor_unique (y : Q) (z : Z) :
  inject_Z z <= y -> y < inject_Z (z + 1) -> Qfloor y = z.
Proof.
  intros Hlo Hhi.
  pose proof (Qfloor_le y) as H1. pose proof (Qlt_floor y) as H2.
  assert (A : (Qfloor y < z + 1)%Z).
  { rewrite Zlt_Qlt. apply Qle_lt_trans with y; assumption. }
  assert (B : (z < Qfloor y + 1)%Z).
  { rewrite Zlt_Qlt. apply Qle_lt_trans with y; assumption. }
  lia.
Qed.

Lemma fmod_shift (u : Q) (k : Z) :
  fmod (u + inject_Z k * 360) 360 == fmod u 360.
Proof.
  unfold fmod.
  assert (E : Qfloor ((u + inject_Z k * 360) / 360) = (Qfloor (u / 360) + k)%Z).
  { apply Qfloor_unique.
    - rewrite inject_Z_plus. pose proof (Qfloor_le (u / 360)) as H.
      setoid_replace ((u + inject_Z k * 360) / 360) with (u / 360 + inject_Z k) by field.
      lra.
    - pose proof (Qlt_floor (u / 360)) as H.
      setoid_replace ((u + inject_Z k * 360) / 360) with (u / 360 + inject_Z k) by field.
      rewrite !inject_Z_plus in *. lra. }
  rewrite E, inject_Z_plus. ring.
Qed.

Lemma fmod_comp (u v : Q) : u == v -> fmod u 360 == fmod v 360.
Proof.
  intros H. unfold fmod.
  assert (E : Qfloor (u / 360) = Qfloor (v / 360)).
  { apply Qfloor_comp. apply Qdiv_comp; [exact H | apply Qeq_refl]. }
  rewrite E. apply Qminus_comp; [exact H | apply Qeq_refl].
Qed.

(** Reducing the antipode modulo 360 or not gives the same circular
    difference, hence the same flagged indices. *)
Lemma circular_difference_unaffected (l lon0 : Q) :
  fmod (l - (lon0 + 180)) 360 == fmod (l - spec_antipode lon0) 360.
Proof.
  rewrite <- (fmod_shift (l - (lon0 + 180)) (Qfloor ((lon0 + 180) / 360))).
  apply fmod_comp. unfold spec_antipode, fmod. ring.
Qed.

(** C5.  At longitude 200 the resolver's antipode is 380, outside [0, 360):
    in [lon + 180 % 360] the remainder applies to 180 alone.  The antipode of
    the specification is 20. *)
Theorem inst_antipode_not_reduced :
  inst_antipode [200] = [380]
  /\ spec_antipode 200 == 20
  /\ 0 <= 200 < 360
  /\ ~ (380 < 360).
Proof.
  repeat split; try (intros H; discriminate H).
Qed.

Lemma carr_inds_bound (d : list Q) (k : nat) :
  In k (carr_inds d) -> (k < length d)%nat.
Proof.
  unfold carr_inds, where_. rewrite in_map_iff. intros [j [<- Hj]].
  apply where_from_bound in Hj. rewrite length_map, length_diff in Hj. lia.
Qed.

(** C4 as stated fails: a jump of 340 degrees downward (350 to 10, the
    wraparound from just under 360 to just over 0) is not flagged. *)
Lemma carr_inds_misses_downward_jump :
  180 < Qabs (10 - 350) /\ carr_inds [350; 10] = [].
Proof. split; reflexivity. Qed.

(** C4, amended.  The index [i + 1] is flagged exactly when the circular
    difference rises by more than 180 degrees from sample [i] to sample
    [i + 1] (the signed difference, so only the wraparound from just over 0
    to just under 360). *)
Theorem carr_inds_flags_upward_jumps (d : list Q) (k : nat) :
  In k (carr_inds d)
  <-> exists i a b,
      k = S i /\ nth_error d i = Some a /\ nth_error d (S i) = Some b
      /\ 180 < b - a.
Proof.
  unfold carr_inds, where_. rewrite in_map_iff. split.
  - intros [j [<- Hj]]. apply where_from_spec in Hj.
    destruct Hj as [i [-> Hi]]. simpl in Hi.
    rewrite nth_error_map in Hi. unfold diff in Hi.
    rewrite nth_error_map2, nth_error_tl in Hi.
    destruct (nth_error d (S i)) as [b|] eqn:Eb; [|discriminate].
    destruct (nth_error d i) as [a|] eqn:Ea; [|discriminate].
    simpl in Hi. injection Hi as Hi. apply Qltb_lt in Hi.
    now exists i, a, b.
  - intros [i [a [b [-> [Ea [Eb Hj]]]]]]. exists i. split; [reflexivity|].
    apply where_from_spec. exists i. split; [reflexivity|].
    rewrite nth_error_map. unfold diff.
    rewrite nth_error_map2, nth_error_tl, Eb, Ea. simpl.
    f_equal. now apply Qltb_lt.
Qed.

Section Resolver.

Variable gen_dt_arr : Q -> Q -> Q -> list Q.
Variable SkyCoord : Type.
Variable create_carrington_trajectory : list Q -> string -> option Q -> SkyCoord.
Variable lon : SkyCoord -> list Q.

(** C2, amended.  For every reference time and body whose ephemeris gives
    one longitude per requested time, the resolver raises nothing and
    returns, in order, the window timestamp at every flagged index of the
    circular difference to [lon0 + 180]: as many timestamps as there are
    flagged indices, whatever their number. *)
Theorem determine_carrington_interval_returns_every_crossing
  (center_date : Q) (body : string) (lon0 : Q) :
  let two_month_window :=
    gen_dt_arr (center_date - days 30) (center_date + days 30) (6 / 24) in
  let two_month_lon :=
    lon (create_carrington_trajectory two_month_window body None) in
  lon (create_carrington_trajectory [center_date] body None) = [lon0] ->
  length two_month_lon = length two_month_window ->
  exists interval,
    determine_carrington_interval gen_dt_arr SkyCoord create_carrington_trajectory
                                  lon center_date body = Ok interval
    /\ Forall2 (fun k t => nth_error two_month_window k = Some t)
               (carr_inds (map (fun l => fmod (l - (lon0 + 180)) 360) two_month_lon))
               interval.
Proof.
  intros w lons H0 Hlen. unfold determine_carrington_interval.
  rewrite H0. fold w. fold lons.
  change (inst_antipode [lon0]) with [lon0 + 180].
  unfold subtract. rewrite broadcast_singleton_r. simpl.
  rewrite map_map.
  destruct (take_in_range w
              (carr_inds (map (fun l => fmod (l - (lon0 + 180)) 360) lons)))
    as [l Hl].
  - apply Forall_forall. intros k Hk. apply carr_inds_bound in Hk.
    rewrite length_map in Hk. now rewrite <- Hlen.
  - exists l. split; [exact Hl | now apply take_Forall2].
Qed.

End Resolver.

(** C2 as stated fails: a body that drifts by 2 degrees a day has no
    crossing in the window and the resolver returns the empty interval; one
    that drifts by 45 degrees a day has eight and all eight are returned.
    Neither call raises. *)
Lemma determine_carrington_interval_degenerate :
  determine_carrington_interval Demo.gen_dt_arr (list Q)
    (Demo.trajectory 100 2) Demo.lon 0 "slow" = Ok []
  /\ determine_carrington_interval Demo.gen_dt_arr (list Q)
       (Demo.trajectory 100 45) Demo.lon 0 "fast"
     = Ok [-2397600; -1706400; -1015200; -324000;
           367200; 1058400; 1749600; 2440800].
Proof. split; vm_compute; reflexivity. Qed.

Lemma determine_carrington_interval_returns_every_crossing_witness :
  exists interval,
    determine_carrington_interval Demo.gen_dt_arr (list Q)
      (Demo.trajectory 100 (66 # 5)) Demo.lon 0 "earth" = Ok interval
    /\ Forall2 (fun k t =>
                  nth_error (Demo.gen_dt_arr (0 - days 30) (0 + days 30) (6 / 24)) k
                  = Some t)
               (carr_inds
                  (map (fun l => fmod (l - (100 + 180)) 360)
                       (Demo.lon
                          (Demo.trajectory 100 (66 # 5)
                             (Demo.gen_dt_arr (0 - days 30) (0 + days 30) (6 / 24))
                             "earth" None))))
               interval.
Proof.
  apply (determine_carrington_interval_returns_every_crossing
           Demo.gen_dt_arr (list Q) (Demo.trajectory 100 (66 # 5))
           Demo.lon 0 "earth" 100).
  - vm_compute. reflexivity.
  - vm_compute. reflexivity.
Defined.

(** ** The hourly reducer *)

Lemma insert_sorted_not_nil (q : Q) (l : list Q) : insert_sorted q l <> [].
Proof. destruct l as [|h t]; simpl; [|destruct (Qle_bool q h)]; discriminate. Qed.

Lemma sort_nil_iff (l : list Q) : sort l = [] <-> l = [].
Proof.
  destruct l as [|q t]; simpl; [tauto|].
  split; [|discriminate]. intros H. now apply insert_sorted_not_nil in H.
Qed.

Lemma finite_part_nil_iff (a : list value) :
  finite_part a = [] <-> Forall (fun v => isnan v = true) a.
Proof.
  induction a as [|[|q] a IH]; simpl.
  - split; constructor.
  - rewrite IH. split; intros H; [now constructor | now inversion H].
  - split; [discriminate | intros H; inversion H; discriminate].
Qed.

Lemma nanmedian_nan_iff (a : list value) :
  nanmedian a = NaN <-> Forall (fun v => isnan v = true) a.
Proof.
  rewrite <- finite_part_nil_iff, <- sort_nil_iff. unfold nanmedian.
  destruct (sort (finite_part a)) as [|q s].
  - tauto.
  - split; [|discriminate].
    destruct (Nat.even (length (q :: s))); discriminate.
Qed.

Lemma mapM_Forall2 {A B : Type} (f : A -> result B) (l : list A) (r : list B) :
  mapM f l = Ok r <-> Forall2 (fun a b => f a = Ok b) l r.
Proof.
  revert r. induction l as [|a l IH]; intros r; simpl.
  - split; [intros H; injection H as <-; constructor | now inversion 1].
  - destruct (f a) as [b|e] eqn:E; simpl.
    + destruct (mapM f l) as [bs|e]; simpl.
      * split.
        -- intros H; injection H as <-. constructor; [exact E | now apply IH].
        -- inversion 1 as [|? b' ? r' Hb Hr]; subst. apply IH in Hr.
           injection Hr as ->. congruence.
      * split; [discriminate|].
        inversion 1 as [|? b' ? r' Hb Hr]; subst. apply IH in Hr. discriminate Hr.
    + split; [discriminate|]. inversion 1; subst. congruence.
Qed.

Lemma mapM_total {A B : Type} (f : A -> result B) (l : list A) :
  (forall a, In a l -> exists b, f a = Ok b) -> exists r, mapM f l = Ok r.
Proof.
  induction l as [|a l IH]; intros H; simpl.
  - now exists [].
  - destruct (H a (or_introl eq_refl)) as [b Hb].
    destruct IH as [r Hr]; [intros; apply H; now right|].
    rewrite Hb, Hr. simpl. now exists (b :: r).
Qed.

Lemma first_where_from (timestamps : list Q) (te : Q) (s i : nat) :
  first (where_from s (map (fun t => Qltb te t) timestamps)) = Ok i ->
  exists j, i = (s + j)%nat /\ first_exceeding timestamps te j.
Proof.
  revert s. induction timestamps as [|t ts IH]; intros s; simpl; [discriminate|].
  destruct (Qltb te t) eqn:E; simpl.
  - intros H; injection H as <-. exists 0%nat. split; [lia|]. split.
    + exists t. split; [reflexivity | now apply Qltb_lt].
    + intros j u Hj; lia.
  - intros H. apply IH in H. destruct H as [j [-> [[u [Hu Hlt]] Hmin]]].
    exists (S j). split; [lia|]. split.
    + now exists u.
    + intros [|k] v Hk Hv; simpl in Hv.
      * injection Hv as <-. now apply Qltb_ge.
      * apply (Hmin k); [lia | exact Hv].
Qed.

Lemma first_where_from_total (timestamps : list Q) (te : Q) (s : nat) :
  (exists t, In t timestamps /\ te < t) ->
  exists i, first (where_from s (map (fun t => Qltb te t) timestamps)) = Ok i.
Proof.
  revert s. induction timestamps as [|t ts IH]; intros s [u [Hin Hlt]]; simpl.
  - destruct Hin.
  - destruct (Qltb te t) eqn:E; simpl; [now exists s|].
    apply IH. exists u. split; [|exact Hlt].
    destruct Hin as [->|Hin]; [|exact Hin].
    apply Qltb_lt in Hlt. congruence.
Qed.

Lemma length_split_from {A : Type} (a : list A) (st : nat) (indices : list nat) :
  length (split_from a st indices) = S (length indices).
Proof.
  revert st. induction indices as [|i r IH]; intros st; simpl; [reflexivity|].
  now rewrite IH.
Qed.

Section Reducer.

Variable gen_dt_arr : Q -> Q -> Q -> list Q.

(** C8.  Whenever the samples are non-empty and every interior boundary of
    the hourly grid is exceeded by some timestamp, the reducer returns, with
    one value per partition of [np.split] at the first indices that exceed
    the boundaries; the value of a partition is NaN exactly when the
    partition holds no non-NaN value (in particular when it is empty). *)
Theorem make_hourly_medians_missing_bin
  (datetimes : list Q) (data : ndarray) (t_first t_last : Q) :
  let ts_edges := removelast (tl (gen_dt_arr t_first t_last (1 / 24))) in
  first datetimes = Ok t_first ->
  last datetimes = Ok t_last ->
  (forall te, In te ts_edges -> exists t, In t datetimes /\ te < t) ->
  exists centers medians argsplit,
    make_hourly_medians gen_dt_arr datetimes data = Ok (centers, medians)
    /\ Forall2 (first_exceeding datetimes) ts_edges argsplit
    /\ length medians = S (length ts_edges)
    /\ forall k part,
        nth_error (split (rows data) argsplit) k = Some part ->
        (nth_error medians k = Some NaN
         <-> Forall (Forall (fun v => isnan v = true)) part).
Proof.
  intros ts_edges Hf Hl Hex.
  destruct (mapM_total
              (fun te => first (where_ (map (fun t => Qltb te t) datetimes)))
              ts_edges) as [argsplit Harg].
  { intros te Hte. apply first_where_from_total. now apply Hex. }
  exists (map (fun t => t + hours (1 / 2))
              (removelast (gen_dt_arr t_first t_last (1 / 24)))),
         (map (fun slice_ => nanmedian (concat slice_))
              (split (rows data) argsplit)),
         argsplit.
  split; [|split; [|split]].
  - unfold make_hourly_medians. rewrite Hf, Hl; simpl.
    fold ts_edges. rewrite Harg. reflexivity.
  - apply mapM_Forall2 in Harg.
    eapply Forall2_impl; [|exact Harg]. intros te i Hi. simpl in Hi.
    apply first_where_from in Hi. destruct Hi as [j [-> Hj]]. exact Hj.
  - rewrite length_map. unfold split. rewrite length_split_from.
    apply mapM_Forall2 in Harg. now rewrite (Forall2_length Harg).
  - intros k part Hk. rewrite nth_error_map, Hk. simpl.
    rewrite <- Forall_concat, <- nanmedian_nan_iff.
    split; [intros H; now injection H | intros ->; reflexivity].
Qed.

End Reducer.

Lemma make_hourly_medians_missing_bin_witness :
  exists centers medians argsplit,
    make_hourly_medians Demo.gen_dt_arr Demo.reducer_times Demo.reducer_values
    = Ok (centers, medians)
    /\ Forall2 (first_exceeding Demo.reducer_times)
               (removelast (tl (Demo.gen_dt_arr 0 14400 (1 / 24)))) argsplit
    /\ length medians
       = S (length (removelast (tl (Demo.gen_dt_arr 0 14400 (1 / 24)))))
    /\ forall k part,
        nth_error (split (rows Demo.reducer_values) argsplit) k = Some part ->
        (nth_error medians k = Some NaN
         <-> Forall (Forall (fun v => isnan v = true)) part).
Proof.
  apply (make_hourly_medians_missing_bin Demo.gen_dt_arr
           Demo.reducer_times Demo.reducer_values 0 14400).
  - reflexivity.
  - reflexivity.
  - intros te Hte. exists 14400. split.
    + vm_compute. tauto.
    + vm_compute in Hte. destruct Hte as [<-|[<-|[]]]; reflexivity.
Defined.

Example make_hourly_medians_missing_bin_run :
  make_hourly_medians Demo.gen_dt_arr Demo.reducer_times Demo.reducer_values
  = Ok ([3600 # 2; 10800 # 2; 18000 # 2], [Fin 3; NaN; Fin 0]).
Proof. vm_compute. reflexivity. Qed.

(** ** Linear interpolation *)

Lemma combine_by_x (xs : list Q) (ys : list value) :
  StronglySorted Qlt xs -> StronglySorted by_x (combine xs ys).
Proof.
  intros H. revert ys. induction H as [|u xs Hs IH Hall]; intros [|v ys]; simpl;
    try constructor.
  - apply IH.
  - apply Forall_forall. intros [qx qy] Hin. apply in_combine_l in Hin.
    unfold by_x; simpl. rewrite Forall_forall in Hall. now apply Hall.
Qed.

Lemma sort_by_x_increasing (pts : list (Q * value)) :
  StronglySorted by_x pts -> sort_by_x pts = pts.
Proof.
  induction 1 as [|p pts Hs IH Hall]; simpl; [reflexivity|].
  rewrite IH. destruct pts as [|h t]; simpl; [reflexivity|].
  inversion Hall as [|? ? Hh _]; subst. unfold by_x in Hh.
  apply Qlt_le_weak, Qltb_ge in Hh. now rewrite Hh.
Qed.

Lemma by_x_head_le (p : Q * value) (pts : list (Q * value)) (i : nat) (q : Q * value) :
  StronglySorted by_x (p :: pts) -> nth_error (p :: pts) i = Some q -> fst p <= fst q.
Proof.
  intros Hs Hq. apply StronglySorted_inv in Hs. destruct Hs as [_ Hall].
  destruct i as [|i]; simpl in Hq.
  - injection Hq as <-. apply Qle_refl.
  - apply nth_error_In in Hq. rewrite Forall_forall in Hall.
    apply Qlt_le_weak. now apply Hall.
Qed.

Lemma by_x_last_ge (pts : list (Q * value)) (d : Q * value) (i : nat) (q : Q * value) :
  StronglySorted by_x pts -> nth_error pts i = Some q -> fst q <= fst (List.last pts d).
Proof.
  intros Hs. revert i q. induction Hs as [|p pts Hs IH Hall]; intros i q Hq.
  - destruct i; discriminate Hq.
  - destruct pts as [|h t].
    + destruct i as [|[|i]]; simpl in Hq; try discriminate.
      injection Hq as <-. apply Qle_refl.
    + change (List.last (p :: h :: t) d) with (List.last (h :: t) d).
      destruct i as [|i]; simpl in Hq.
      * injection Hq as <-. apply Qle_trans with (fst h).
        -- inversion Hall; subst. now apply Qlt_le_weak.
        -- apply (IH 0%nat). reflexivity.
      * now apply (IH i).
Qed.

Lemma interp_node (x0 : Q) (y0 : value) (rest : list (Q * value)) (t : Q) :
  StronglySorted by_x ((x0, y0) :: rest) -> t == x0 ->
  interp ((x0, y0) :: rest) t = y0.
Proof.
  intros Hs Ht. simpl. destruct rest as [|[x1 y1] rest]; [reflexivity|].
  apply StronglySorted_inv in Hs. destruct Hs as [_ Hall].
  inversion Hall as [|? ? Hlt _]; subst. unfold by_x in Hlt; simpl in Hlt.
  destruct (Qle_bool x1 t) eqn:E.
  - apply Qle_bool_iff in E. lra.
  - destruct (Qeq_bool x0 t) eqn:E2; [reflexivity|].
    apply Qeq_bool_neq in E2. exfalso. apply E2. now symmetry.
Qed.

Lemma interp_cons2 (x0 : Q) (y0 : value) (x1 : Q) (y1 : value)
  (rest : list (Q * value)) (t : Q) :
  interp ((x0, y0) :: (x1, y1) :: rest) t
  = if Qle_bool x1 t then interp ((x1, y1) :: rest) t
    else if Qeq_bool x0 t then y0 else lerp x0 y0 x1 y1 t.
Proof. reflexivity. Qed.

Lemma interp_bracket (pts : list (Q * value)) (i : nat) (x0 a x1 b t : Q) :
  StronglySorted by_x pts ->
  nth_error pts i = Some (x0, Fin a) ->
  nth_error pts (S i) = Some (x1, Fin b) ->
  x0 <= t -> t <= x1 ->
  veq (interp pts t) (Fin ((b - a) / (x1 - x0) * (t - x0) + a)).
Proof.
  intros Hs. revert i. induction Hs as [|[px py] pts Hs IH Hall]; intros i H0 H1 Hlo Hhi.
  - destruct i; discriminate H0.
  - destruct pts as [|[qx qy] rest]; [destruct i; discriminate H1|].
    assert (Hpq : px < qx) by (inversion Hall; subst; assumption).
    destruct i as [|i].
    + simpl in H0, H1. injection H0 as -> ->. injection H1 as -> ->.
      rewrite interp_cons2. destruct (Qle_bool x1 t) eqn:E.
      * apply Qle_bool_iff in E. assert (Ht : t == x1) by lra.
        rewrite (interp_node x1 (Fin b) rest t Hs Ht). simpl.
        rewrite Ht. field. lra.
      * destruct (Qeq_bool x0 t) eqn:E2.
        -- apply Qeq_bool_iff in E2. simpl. rewrite <- E2. field. lra.
        -- simpl. reflexivity.
    + assert (Hq : qx <= x0).
      { apply (by_x_head_le (qx, qy) rest i (x0, Fin a) Hs). exact H0. }
      rewrite interp_cons2. assert (E : Qle_bool qx t = true) by (apply Qle_bool_iff; lra).
      rewrite E. apply (IH i); assumption.
Qed.

Lemma interp_finite (pts : list (Q * value)) (t : Q) :
  pts <> [] -> Forall (fun p => isnan (snd p) = false) pts ->
  isnan (interp pts t) = false.
Proof.
  intros Hne Hall. induction Hall as [|[x0 y0] pts Hy Hall IH]; [congruence|].
  destruct pts as [|[x1 y1] rest]; [exact Hy|].
  rewrite interp_cons2.
  destruct (Qle_bool x1 t); [apply IH; discriminate|].
  destruct (Qeq_bool x0 t); [exact Hy|].
  inversion Hall as [|? ? Hy1 _]; subst. simpl in Hy, Hy1.
  destruct y0, y1; try discriminate. reflexivity.
Qed.

Lemma insert_by_x_In (p q : Q * value) (l : list (Q * value)) :
  In q (insert_by_x p l) <-> q = p \/ In q l.
Proof.
  induction l as [|h t IH]; simpl.
  - intuition congruence.
  - destruct (Qltb (fst h) (fst p)); simpl; rewrite ?IH; intuition congruence.
Qed.

Lemma sort_by_x_In (q : Q * value) (l : list (Q * value)) :
  In q (sort_by_x l) <-> In q l.
Proof.
  induction l as [|p t IH]; simpl; [tauto|].
  rewrite insert_by_x_In, IH. intuition congruence.
Qed.

Lemma sort_by_x_Forall (P : Q * value -> Prop) (l : list (Q * value)) :
  Forall P l -> Forall P (sort_by_x l).
Proof.
  rewrite !Forall_forall. intros H q Hq. apply H. now apply sort_by_x_In.
Qed.

Lemma last_In {A : Type} (a : A) (l : list A) (d : A) : In (List.last (a :: l) d) (a :: l).
Proof.
  revert a. induction l as [|b l IH]; intros a; [now left|].
  right. apply IH.
Qed.

Lemma length_insert_by_x (p : Q * value) (l : list (Q * value)) :
  length (insert_by_x p l) = S (length l).
Proof.
  induction l as [|h t IH]; simpl; [reflexivity|].
  destruct (Qltb (fst h) (fst p)); simpl; now rewrite ?IH.
Qed.

Lemma length_sort_by_x (l : list (Q * value)) : length (sort_by_x l) = length l.
Proof.
  induction l as [|p t IH]; simpl; [reflexivity|].
  now rewrite length_insert_by_x, IH.
Qed.

(** What [interp1d] returns on arrays of equal, non-zero length. *)
Lemma interp1d_returns (xs : list Q) (ys : list value) (fill_value : value)
  (x_new : list Q) :
  length xs = length ys -> xs <> [] ->
  exists p0 rest,
    sort_by_x (combine xs ys) = p0 :: rest
    /\ interp1d xs ys fill_value x_new
       = Ok (map (fun t =>
                    if Qltb t (fst p0) || Qltb (fst (List.last (p0 :: rest) p0)) t
                    then fill_value else interp (p0 :: rest) t) x_new).
Proof.
  intros Hlen Hne. unfold interp1d.
  rewrite Hlen, Nat.eqb_refl. simpl.
  destruct (sort_by_x (combine xs ys)) as [|p0 rest] eqn:E.
  - exfalso. apply (f_equal (@length _)) in E.
    rewrite length_sort_by_x, length_combine, <- Hlen, Nat.min_id in E.
    destruct xs; [congruence | discriminate E].
  - now exists p0, rest.
Qed.

Lemma nth_error_combine {A B : Type} (a : list A) (b : list B) (i : nat) :
  nth_error (combine a b) i =
  match nth_error a i, nth_error b i with
  | Some u, Some v => Some (u, v)
  | _, _ => None
  end.
Proof.
  revert b i. induction a as [|u a IH]; intros [|v b] [|i]; simpl; try reflexivity.
  - now destruct (nth_error a i).
  - apply IH.
Qed.

Lemma needs_resampling_nonempty (a b : list Q) (c : bool) :
  needs_resampling a b = Ok c -> a <> [] /\ b <> [].
Proof.
  unfold needs_resampling. destruct a, b; simpl; try discriminate.
  intros _. split; discriminate.
Qed.

(** C3 as stated fails: the observed values 3 and -1, four hours apart, are
    signed first and the signs +1 and -1 are interpolated, which gives 1/2 one
    hour in, where the sign of the interpolated raw value 2 is +1. *)
Lemma aligned_obs_pol_interpolates_signs :
  let model := ([0; 3600; 14400], [Fin 1; Fin 1; Fin (-1)]) in
  let obs := ([0; 14400], [Fin 3; Fin (-1)]) in
  needs_resampling (fst model) (fst obs) = Ok true
  /\ (exists p, aligned_obs_pol model obs = Ok [Fin 1; Fin p; Fin (-1 # 1)]
                /\ p == 1 # 2)
  /\ spec_aligned_obs_pol model obs = Ok [Fin 1; Fin 1; Fin (-1 # 1)]
  /\ aligned_obs_pol model obs <> spec_aligned_obs_pol model obs.
Proof.
  repeat split.
  - eexists. split; [vm_compute; reflexivity | reflexivity].
  - vm_compute. intros H; discriminate H.
Qed.

(** C3, amended.  Whenever the two series differ in length or in first or
    last timestamp, the observed polarity (the sign of the observed values,
    taken first) is linearly interpolated onto the model's timestamps and is
    not signed again: between two consecutive observed timestamps with
    values present, the resampled entry is the straight line between the two
    signs. *)
Theorem aligned_obs_pol_resamples_polarity
  (model_tstamps : list Q) (model_values : list value)
  (obs_tstamps : list Q) (obs_values : list value) :
  needs_resampling model_tstamps obs_tstamps = Ok true ->
  length obs_tstamps = length obs_values ->
  StronglySorted Qlt obs_tstamps ->
  exists obs_pol,
    aligned_obs_pol (model_tstamps, model_values) (obs_tstamps, obs_values)
    = Ok obs_pol
    /\ interp1d obs_tstamps (map sign obs_values) NaN model_tstamps = Ok obs_pol
    /\ length obs_pol = length model_tstamps
    /\ forall k t i x0 x1 a b,
        nth_error model_tstamps k = Some t ->
        nth_error obs_tstamps i = Some x0 ->
        nth_error obs_tstamps (S i) = Some x1 ->
        nth_error obs_values i = Some (Fin a) ->
        nth_error obs_values (S i) = Some (Fin b) ->
        x0 <= t -> t <= x1 ->
        exists p,
          nth_error obs_pol k = Some (Fin p)
          /\ p == (qsign b - qsign a) / (x1 - x0) * (t - x0) + qsign a.
Proof.
  intros Hc Hlen Hs.
  destruct (needs_resampling_nonempty _ _ _ Hc) as [_ Hne].
  assert (Hlen' : length obs_tstamps = length (map sign obs_values))
    by now rewrite length_map.
  destruct (interp1d_returns obs_tstamps (map sign obs_values) NaN model_tstamps
              Hlen' Hne) as [p0 [rest [Hsort Hcall]]].
  pose proof (combine_by_x obs_tstamps (map sign obs_values) Hs) as Hpts.
  rewrite (sort_by_x_increasing _ Hpts) in Hsort.
  eexists. split; [|split; [exact Hcall|split]].
  - unfold aligned_obs_pol, datetime2unix; simpl. rewrite Hc. exact Hcall.
  - now rewrite length_map.
  - intros k t i x0 x1 a b Hk H0 H1 Ha Hb Hlo Hhi.
    rewrite nth_error_map, Hk. unfold option_map.
    assert (P0 : nth_error (p0 :: rest) i = Some (x0, Fin (qsign a))).
    { rewrite <- Hsort, nth_error_combine, H0, nth_error_map, Ha. reflexivity. }
    assert (P1 : nth_error (p0 :: rest) (S i) = Some (x1, Fin (qsign b))).
    { rewrite <- Hsort, nth_error_combine, H1, nth_error_map, Hb. reflexivity. }
    rewrite Hsort in Hpts.
    pose proof (by_x_head_le p0 rest i _ Hpts P0) as Hfirst.
    pose proof (by_x_last_ge (p0 :: rest) p0 (S i) _ Hpts P1) as Hlast.
    cbn [fst] in Hfirst, Hlast.
    assert (E1 : Qltb t (fst p0) = false) by (apply Qltb_ge; lra).
    assert (E2 : Qltb (fst (List.last (p0 :: rest) p0)) t = false)
      by (apply Qltb_ge; lra).
    rewrite E1, E2. cbn [orb].
    pose proof (interp_bracket (p0 :: rest) i x0 (qsign a) x1 (qsign b) t
                  Hpts P0 P1 Hlo Hhi) as Hv.
    destruct (interp (p0 :: rest) t) as [|p]; simpl in Hv; [contradiction|].
    now exists p.
Qed.

Lemma aligned_obs_pol_resamples_polarity_witness :
  exists obs_pol,
    aligned_obs_pol ([0; 3600; 14400], [Fin 1; Fin 1; Fin (-1)])
                    ([0; 14400], [Fin 3; Fin (-1)]) = Ok obs_pol
    /\ interp1d [0; 14400] (map sign [Fin 3; Fin (-1)]) NaN [0; 3600; 14400]
       = Ok obs_pol
    /\ length obs_pol = length [0; 3600; 14400]
    /\ forall k t i x0 x1 a b,
        nth_error [0; 3600; 14400] k = Some t ->
        nth_error [0; 14400] i = Some x0 ->
        nth_error [0; 14400] (S i) = Some x1 ->
        nth_error [Fin 3; Fin (-1)] i = Some (Fin a) ->
        nth_error [Fin 3; Fin (-1)] (S i) = Some (Fin b) ->
        x0 <= t -> t <= x1 ->
        exists p,
          nth_error obs_pol k = Some (Fin p)
          /\ p == (qsign b - qsign a) / (x1 - x0) * (t - x0) + qsign a.
Proof.
  apply (aligned_obs_pol_resamples_polarity
           [0; 3600; 14400] [Fin 1; Fin 1; Fin (-1)]
           [0; 14400] [Fin 3; Fin (-1)]).
  - reflexivity.
  - reflexivity.
  - apply SSorted_cons.
    + apply SSorted_cons; [apply SSorted_nil | apply Forall_nil].
    + apply Forall_cons; [reflexivity | apply Forall_nil].
Defined.

(** ** The radial speeds of the predicted-series builder *)

Lemma Forall2_In_r {A B : Type} (R : A -> B -> Prop) (l : list A) (r : list B) (b : B) :
  Forall2 R l r -> In b r -> exists a, In a l /\ R a b.
Proof.
  induction 1 as [|a' b' l r Hab _ IH]; intros Hin; [destruct Hin|].
  destruct Hin as [->|Hin].
  - exists a'. split; [now left | exact Hab].
  - destruct (IH Hin) as [a [Ha HR]]. exists a. split; [now right | exact HR].
Qed.

Lemma nan_filt_spec (vr_medians : list value) (k : nat) :
  In k (where_ (map (fun v => negb (isnan v)) vr_medians))
  <-> exists v, nth_error vr_medians k = Some (Fin v).
Proof.
  unfold where_. rewrite where_from_spec. split.
  - intros [j [-> Hj]]. simpl. rewrite nth_error_map in Hj.
    destruct (nth_error vr_medians j) as [[|v]|]; try discriminate. now exists v.
  - intros [v Hv]. exists k. split; [reflexivity|].
    now rewrite nth_error_map, Hv.
Qed.

Lemma where_from_increasing (mask : list bool) (s : nat) :
  StronglySorted lt (where_from s mask).
Proof.
  revert s. induction mask as [|b mask IH]; intros s; simpl; [constructor|].
  destruct b; simpl; [|apply IH].
  constructor; [apply IH|].
  apply Forall_forall. intros k Hk. apply where_from_bound in Hk. lia.
Qed.

Lemma increasing_nth (w : list Q) (i j : nat) (a b : Q) :
  StronglySorted Qlt w -> (i < j)%nat ->
  nth_error w i = Some a -> nth_error w j = Some b -> a < b.
Proof.
  intros Hs. revert i j. induction Hs as [|u w Hs IH Hall]; intros i j Hij Ha Hb.
  - destruct i; discriminate Ha.
  - destruct j as [|j]; [lia|]. simpl in Hb. destruct i as [|i]; simpl in Ha.
    + injection Ha as <-. rewrite Forall_forall in Hall.
      apply Hall. now apply nth_error_In in Hb.
    + apply (IH i j); [lia | exact Ha | exact Hb].
Qed.

Lemma take_increasing (w : list Q) (inds : list nat) (l : list Q) :
  StronglySorted Qlt w -> StronglySorted lt inds ->
  take w inds = Ok l -> StronglySorted Qlt l.
Proof.
  intros Hw Hi Ht. apply take_Forall2 in Ht.
  revert Hi. induction Ht as [|k t inds l Hk Hrest IH]; intros Hi; [constructor|].
  apply StronglySorted_inv in Hi. destruct Hi as [Hi Hall].
  constructor; [now apply IH|].
  apply Forall_forall. intros u Hu.
  destruct (Forall2_In_r _ _ _ _ Hrest Hu) as [j [Hj Hnth]].
  rewrite Forall_forall in Hall.
  apply (increasing_nth w k j); auto.
Qed.

Lemma increasing_consecutive (l : list nat) (i j : nat) :
  StronglySorted lt l -> In i l -> In j l -> (i < j)%nat ->
  (forall m, (i < m < j)%nat -> ~ In m l) ->
  exists k, nth_error l k = Some i /\ nth_error l (S k) = Some j.
Proof.
  induction 1 as [|h t Hs IH Hall]; intros Hi Hj Hij Hgap; [destruct Hi|].
  rewrite Forall_forall in Hall.
  destruct Hi as [->|Hi].
  - destruct Hj as [->|Hj]; [lia|].
    destruct t as [|h' t']; [destruct Hj|].
    assert (Hh' : (i < h')%nat) by (apply Hall; now left).
    apply StronglySorted_inv in Hs. destruct Hs as [_ Hall'].
    rewrite Forall_forall in Hall'.
    assert (E : h' = j).
    { destruct Hj as [E|Hj]; [exact E|]. specialize (Hall' j Hj).
      exfalso. apply (Hgap h'); [lia | right; now left]. }
    subst h'. now exists 0%nat.
  - assert (Hhi : (h < i)%nat) by now apply Hall.
    destruct Hj as [->|Hj]; [lia|].
    destruct (IH Hi Hj Hij) as [k [Hk Hk']].
    + intros m Hm Hin. apply (Hgap m Hm). now right.
    + now exists (S k).
Qed.

Lemma Forall2_nth_error_l {A B : Type} (R : A -> B -> Prop) (l : list A)
  (r : list B) (k : nat) (a : A) :
  Forall2 R l r -> nth_error l k = Some a ->
  exists b, nth_error r k = Some b /\ R a b.
Proof.
  intros H. revert k. induction H as [|a' b' l r Hab _ IH]; intros k Hk.
  - destruct k; discriminate Hk.
  - destruct k as [|k]; simpl in Hk.
    + injection Hk as <-. now exists b'.
    + now apply IH.
Qed.

(** What the speeds are whenever lines 151-157 return. *)
Lemma vr_on_grid_spec
  (times_medians : list Q) (vr_medians : list value) (datetimes_hourly : list Q)
  (vr_arr : list value) :
  vr_on_grid times_medians vr_medians datetimes_hourly = Ok vr_arr ->
  length vr_arr = length datetimes_hourly
  /\ Forall (fun v => isnan v = false) vr_arr
  /\ forall k t,
      nth_error datetimes_hourly k = Some t ->
      out_of_range times_medians vr_medians t ->
      nth_error vr_arr k = Some (Fin 360).
Proof.
  unfold vr_on_grid, datetime2unix.
  set (nan_filt := where_ (map (fun v => negb (isnan v)) vr_medians)).
  destruct (take vr_medians nan_filt) as [vr'|] eqn:Hvr; [|discriminate].
  destruct (take times_medians nan_filt) as [tm'|] eqn:Htm; [|discriminate].
  cbn [bind]. unfold interp1d.
  destruct (negb (Nat.eqb (length tm') (length vr'))); [discriminate|].
  destruct (sort_by_x (combine tm' vr')) as [|p0 rest] eqn:Hsort; [discriminate|].
  intros H; injection H as <-.
  pose proof (proj1 (take_Forall2 _ _ _) Hvr) as Fvr.
  pose proof (proj1 (take_Forall2 _ _ _) Htm) as Ftm.
  assert (Hvalid : forall u, In u tm' -> valid_time times_medians vr_medians u).
  { intros u Hu. destruct (Forall2_In_r _ _ _ _ Ftm Hu) as [k [Hk Hnth]].
    apply nan_filt_spec in Hk. destruct Hk as [v Hv]. now exists k, v. }
  assert (Hfin : Forall (fun v => isnan v = false) vr').
  { apply Forall_forall. intros v Hv.
    destruct (Forall2_In_r _ _ _ _ Fvr Hv) as [k [Hk Hnth]].
    apply nan_filt_spec in Hk. destruct Hk as [q Hq].
    rewrite Hq in Hnth. now injection Hnth as <-. }
  assert (Hpts : forall p, In p (p0 :: rest) ->
                           valid_time times_medians vr_medians (fst p)
                           /\ isnan (snd p) = false).
  { intros [px py] Hp. rewrite <- Hsort in Hp.
    apply (proj1 (sort_by_x_In _ _)) in Hp. split.
    - apply Hvalid. now apply in_combine_l in Hp.
    - rewrite Forall_forall in Hfin. apply Hfin. now apply in_combine_r in Hp. }
  split; [|split].
  - now rewrite length_map.
  - apply Forall_forall. intros v Hv. apply in_map_iff in Hv.
    destruct Hv as [t [<- _]]. unfold evaluate.
    destruct (Qltb t (fst p0) || Qltb (fst (List.last (p0 :: rest) p0)) t);
      [reflexivity|].
    apply interp_finite; [discriminate|].
    apply Forall_forall. intros p Hp. now apply Hpts.
  - intros k t Hk Hout. rewrite nth_error_map, Hk. unfold option_map, evaluate.
    f_equal. destruct Hout as [Hbelow | Habove].
    + assert (E : Qltb t (fst p0) = true).
      { apply Qltb_lt, Hbelow, Hpts. now left. }
      now rewrite E.
    + assert (E : Qltb (fst (List.last (p0 :: rest) p0)) t = true).
      { apply Qltb_lt, Habove, Hpts. apply last_In. }
      rewrite E. now rewrite orb_true_r.
Qed.

(** Lines 151-157 return as soon as one median is not NaN. *)
Lemma vr_on_grid_returns
  (times_medians : list Q) (vr_medians : list value) (datetimes_hourly : list Q) :
  (length vr_medians <= length times_medians)%nat ->
  (exists t, valid_time times_medians vr_medians t) ->
  exists vr_arr, vr_on_grid times_medians vr_medians datetimes_hourly = Ok vr_arr.
Proof.
  intros Hlen [t0 [j0 [v0 [Ht0 Hv0]]]].
  set (nan_filt := where_ (map (fun v => negb (isnan v)) vr_medians)).
  assert (Hbound : Forall (fun k => (k < length vr_medians)%nat) nan_filt).
  { apply Forall_forall. intros k Hk. apply nan_filt_spec in Hk.
    destruct Hk as [v Hv]. apply nth_error_Some. congruence. }
  destruct (take_in_range vr_medians nan_filt Hbound) as [vr' Hvr].
  destruct (take_in_range times_medians nan_filt) as [tm' Htm].
  { eapply Forall_impl; [|exact Hbound]. simpl. intros; lia. }
  pose proof (proj1 (take_Forall2 _ _ _) Hvr) as Fvr.
  pose proof (proj1 (take_Forall2 _ _ _) Htm) as Ftm.
  assert (Hlen' : length tm' = length vr').
  { now rewrite <- (Forall2_length Ftm), <- (Forall2_length Fvr). }
  assert (Hne : tm' <> []).
  { assert (Hin : In j0 nan_filt) by (apply nan_filt_spec; now exists v0).
    intros ->. inversion Ftm as [Hnil|]; subst. rewrite <- Hnil in Hin. destruct Hin. }
  destruct (interp1d_returns tm' vr' (Fin 360) datetimes_hourly Hlen' Hne)
    as [p0 [rest [_ Hcall]]].
  eexists. unfold vr_on_grid, datetime2unix. fold nan_filt.
  rewrite Hvr, Htm. cbn [bind]. exact Hcall.
Qed.

(** Between two consecutive valid medians the speed lies on the straight
    line through them. *)
Lemma vr_on_grid_between
  (times_medians : list Q) (vr_medians : list value) (datetimes_hourly : list Q)
  (vr_arr : list value) (k : nat) (t : Q) (i j : nat) (x0 x1 a b : Q) :
  vr_on_grid times_medians vr_medians datetimes_hourly = Ok vr_arr ->
  StronglySorted Qlt times_medians ->
  nth_error datetimes_hourly k = Some t ->
  nth_error times_medians i = Some x0 -> nth_error vr_medians i = Some (Fin a) ->
  nth_error times_medians j = Some x1 -> nth_error vr_medians j = Some (Fin b) ->
  (i < j)%nat ->
  (forall m, (i < m < j)%nat -> nth_error vr_medians m = Some NaN) ->
  x0 <= t -> t <= x1 ->
  exists q, nth_error vr_arr k = Some (Fin q)
            /\ q == (b - a) / (x1 - x0) * (t - x0) + a.
Proof.
  intros Hvr Hsorted Hk Hx0 Ha Hx1 Hb Hij Hgap Hlo Hhi.
  revert Hvr. unfold vr_on_grid, datetime2unix.
  set (nan_filt := where_ (map (fun v => negb (isnan v)) vr_medians)).
  destruct (take vr_medians nan_filt) as [vr'|] eqn:Evr; [|discriminate].
  destruct (take times_medians nan_filt) as [tm'|] eqn:Etm; [|discriminate].
  cbn [bind]. intros Hcall.
  pose proof (proj1 (take_Forall2 _ _ _) Evr) as Fvr.
  pose proof (proj1 (take_Forall2 _ _ _) Etm) as Ftm.
  assert (Hinc : StronglySorted lt nan_filt) by apply where_from_increasing.
  destruct (increasing_consecutive nan_filt i j Hinc) as [p [Hp Hp']].
  { apply nan_filt_spec. now exists a. }
  { apply nan_filt_spec. now exists b. }
  { exact Hij. }
  { intros m Hm Hin. apply nan_filt_spec in Hin. destruct Hin as [v Hv].
    rewrite (Hgap m Hm) in Hv. discriminate Hv. }
  destruct (Forall2_nth_error_l _ _ _ _ _ Ftm Hp) as [u0 [T0 E0]].
  destruct (Forall2_nth_error_l _ _ _ _ _ Ftm Hp') as [u1 [T1 E1]].
  destruct (Forall2_nth_error_l _ _ _ _ _ Fvr Hp) as [w0 [V0 F0]].
  destruct (Forall2_nth_error_l _ _ _ _ _ Fvr Hp') as [w1 [V1 F1]].
  rewrite Hx0 in E0. injection E0 as <-. rewrite Hx1 in E1. injection E1 as <-.
  rewrite Ha in F0. injection F0 as <-. rewrite Hb in F1. injection F1 as <-.
  assert (Hlen : length tm' = length vr').
  { now rewrite <- (Forall2_length Ftm), <- (Forall2_length Fvr). }
  assert (Hne : tm' <> []) by (intros ->; destruct p; discriminate T0).
  destruct (interp1d_returns tm' vr' (Fin 360) datetimes_hourly Hlen Hne)
    as [p0 [rest [Hsort Hret]]].
  assert (Eout : vr_arr
                 = map (fun t =>
                          if Qltb t (fst p0)
                             || Qltb (fst (List.last (p0 :: rest) p0)) t
                          then Fin 360 else interp (p0 :: rest) t)
                       datetimes_hourly) by congruence.
  rewrite Eout. clear Eout Hcall Hret.
  pose proof (combine_by_x tm' vr'
                (take_increasing _ _ _ Hsorted Hinc Etm)) as Hpts.
  rewrite (sort_by_x_increasing _ Hpts) in Hsort.
  assert (P0 : nth_error (p0 :: rest) p = Some (x0, Fin a)).
  { rewrite <- Hsort, nth_error_combine, T0, V0. reflexivity. }
  assert (P1 : nth_error (p0 :: rest) (S p) = Some (x1, Fin b)).
  { rewrite <- Hsort, nth_error_combine, T1, V1. reflexivity. }
  rewrite Hsort in Hpts.
  pose proof (by_x_head_le p0 rest p _ Hpts P0) as Hfirst.
  pose proof (by_x_last_ge (p0 :: rest) p0 (S p) _ Hpts P1) as Hlast.
  cbn [fst] in Hfirst, Hlast.
  rewrite nth_error_map, Hk. unfold option_map.
  assert (G1 : Qltb t (fst p0) = false) by (apply Qltb_ge; lra).
  assert (G2 : Qltb (fst (List.last (p0 :: rest) p0)) t = false)
    by (apply Qltb_ge; lra).
  rewrite G1, G2. cbn [orb].
  pose proof (interp_bracket (p0 :: rest) p x0 a x1 b t Hpts P0 P1 Hlo Hhi) as Hv.
  destruct (interp (p0 :: rest) t) as [|q]; simpl in Hv; [contradiction|].
  now exists q.
Qed.

(** C9 as stated fails: with no hourly median that is not NaN the lookups do
    not fall back to 360, the call raises [ValueError] ([interp1d] on empty
    arrays), in lines 151-157 alone and in the builder; and a median without
    a bin centre makes the filtering raise [IndexError]. *)
Lemma vr_on_grid_without_valid_median_raises :
  vr_on_grid [1800; 5400] [NaN; NaN] [0; 3600; 7200] = Raise ValueError
  /\ vr_on_grid [] [Fin 400] [0; 3600] = Raise IndexError
  /\ create_polarity_model Demo.gen_dt_arr (list Q) Demo.earth Demo.lon
       Demo.download_nan_vr Demo.ballistically_project unit Demo.sample_at_coords
       tt 0 "psp" false (5 # 2) true = Raise ValueError.
Proof. repeat split; vm_compute; reflexivity. Qed.

(** C9, amended.  Given hourly medians of the radial speed, each with a bin
    centre, of which at least one is not NaN: the NaN medians are dropped and
    the speeds on the hourly grid are returned, one per grid timestamp, none
    of them NaN; the speed at a grid timestamp below or above all valid
    median timestamps is the default 360; and, the median timestamps being in
    increasing order, the speed at a grid timestamp between two consecutive
    valid medians lies on the straight line through them. *)
Theorem vr_on_grid_interpolates_valid_medians
  (times_medians : list Q) (vr_medians : list value) (datetimes_hourly : list Q) :
  (length vr_medians <= length times_medians)%nat ->
  (exists t, valid_time times_medians vr_medians t) ->
  exists vr_arr,
    vr_on_grid times_medians vr_medians datetimes_hourly = Ok vr_arr
    /\ length vr_arr = length datetimes_hourly
    /\ Forall (fun v => isnan v = false) vr_arr
    /\ (forall k t,
          nth_error datetimes_hourly k = Some t ->
          out_of_range times_medians vr_medians t ->
          nth_error vr_arr k = Some (Fin 360))
    /\ (StronglySorted Qlt times_medians ->
        forall k t i j x0 x1 a b,
          nth_error datetimes_hourly k = Some t ->
          nth_error times_medians i = Some x0 ->
          nth_error vr_medians i = Some (Fin a) ->
          nth_error times_medians j = Some x1 ->
          nth_error vr_medians j = Some (Fin b) ->
          (i < j)%nat ->
          (forall m, (i < m < j)%nat -> nth_error vr_medians m = Some NaN) ->
          x0 <= t -> t <= x1 ->
          exists q, nth_error vr_arr k = Some (Fin q)
                    /\ q == (b - a) / (x1 - x0) * (t - x0) + a).
Proof.
  intros Hlen Hvalid.
  destruct (vr_on_grid_returns _ _ datetimes_hourly Hlen Hvalid) as [vr_arr Hvr].
  exists vr_arr. split; [exact Hvr|].
  destruct (vr_on_grid_spec _ _ _ _ Hvr) as [H1 [H2 H3]].
  repeat split; try assumption.
  intros Hsorted k t i j x0 x1 a b Hk Hx0 Ha Hx1 Hb Hij Hgap Hlo Hhi.
  now apply (vr_on_grid_between times_medians vr_medians datetimes_hourly
               vr_arr k t i j x0 x1 a b).
Qed.

Lemma vr_on_grid_interpolates_valid_medians_witness :
  exists vr_arr,
    vr_on_grid Demo.speed_times Demo.speed_medians Demo.speed_grid = Ok vr_arr
    /\ length vr_arr = length Demo.speed_grid
    /\ Forall (fun v => isnan v = false) vr_arr
    /\ (forall k t,
          nth_error Demo.speed_grid k = Some t ->
          out_of_range Demo.speed_times Demo.speed_medians t ->
          nth_error vr_arr k = Some (Fin 360))
    /\ (StronglySorted Qlt Demo.speed_times ->
        forall k t i j x0 x1 a b,
          nth_error Demo.speed_grid k = Some t ->
          nth_error Demo.speed_times i = Some x0 ->
          nth_error Demo.speed_medians i = Some (Fin a) ->
          nth_error Demo.speed_times j = Some x1 ->
          nth_error Demo.speed_medians j = Some (Fin b) ->
          (i < j)%nat ->
          (forall m, (i < m < j)%nat -> nth_error Demo.speed_medians m = Some NaN) ->
          x0 <= t -> t <= x1 ->
          exists q, nth_error vr_arr k = Some (Fin q)
                    /\ q == (b - a) / (x1 - x0) * (t - x0) + a).
Proof.
  apply (vr_on_grid_interpolates_valid_medians
           Demo.speed_times Demo.speed_medians Demo.speed_grid).
  - simpl. lia.
  - exists 5400, 1%nat, 400. split; reflexivity.
Defined.

(** On that example: 360 outside the valid medians (5400 and 12600 seconds),
    and 425 and 475 on the line between 400 and 500 inside, across the NaN
    median in between. *)
Example vr_on_grid_run :
  exists q1 q2,
    vr_on_grid Demo.speed_times Demo.speed_medians Demo.speed_grid
    = Ok [Fin 360; Fin 360; Fin q1; Fin q2; Fin 360; Fin 360]
    /\ q1 == 425 /\ q2 == 475.
Proof. eexists _, _. split; [vm_compute; reflexivity | split; reflexivity]. Qed.

Section PredictedSeries.

Variable gen_dt_arr : Q -> Q -> Q -> list Q.
Variable SkyCoord : Type.
Variable create_carrington_trajectory : list Q -> string -> option Q -> SkyCoord.
Variable lon : SkyCoord -> list Q.
Variable download_vr_data : list Q -> string -> list (string * tplot).
Variable ballistically_project : SkyCoord -> Q -> option (list value) -> SkyCoord.
Variable NLMap : Type.
Variable sample_at_coords : NLMap -> SkyCoord -> list value.

(** In the builder: whenever it returns with a radial-velocity series
    supplied ([constant_vr] false), the speeds handed to the projector are
    those of lines 151-157 on the hourly grid of the series, with the default
    360 wherever the grid leaves the range of the valid medians. *)
Lemma create_polarity_model_vr_arr
  (model_NL_map : NLMap) (center_date : Q) (body : string) (altitude : Q)
  (out : model_output) :
  create_polarity_model gen_dt_arr SkyCoord create_carrington_trajectory lon
    download_vr_data ballistically_project NLMap sample_at_coords
    model_NL_map center_date body false altitude true = Ok out ->
  exists grid polarity times_medians vr_medians vr_arr,
    out = SeriesVr (grid, polarity) (Some vr_arr)
    /\ vr_on_grid times_medians vr_medians grid = Ok vr_arr
    /\ length vr_arr = length grid
    /\ Forall (fun v => isnan v = false) vr_arr
    /\ forall k t,
        nth_error grid k = Some t ->
        out_of_range times_medians vr_medians t ->
        nth_error vr_arr k = Some (Fin 360).
Proof.
  unfold create_polarity_model.
  destruct (determine_carrington_interval _ _ _ _ center_date body)
    as [interval|]; [|discriminate].
  cbn [bind].
  destruct (gen_dt_arr_unpacked gen_dt_arr interval (1 / 24)) as [grid|];
    [|discriminate].
  cbn [bind].
  match goal with
  | |- bind (bind ?m _) _ = _ -> _ => destruct m as [[tm vm]|]; [|discriminate]
  end.
  cbn [bind].
  destruct (vr_on_grid tm vm grid) as [vr|] eqn:Hvr; [|discriminate].
  cbn [bind]. intros H; injection H as <-.
  eexists grid, _, tm, vm, vr. split; [reflexivity|].
  split; [exact Hvr | now apply vr_on_grid_spec].
Qed.

End PredictedSeries.

(** ** The observed-series builder *)

Lemma combine_map_r (g : value -> value) (xs : list Q) (ys : list value) :
  combine xs (map g ys) = map (on_snd g) (combine xs ys).
Proof.
  revert ys. induction xs as [|u xs IH]; intros [|v ys]; simpl; try reflexivity.
  now rewrite IH.
Qed.

Lemma insert_by_x_map (g : value -> value) (p : Q * value) (l : list (Q * value)) :
  insert_by_x (on_snd g p) (map (on_snd g) l) = map (on_snd g) (insert_by_x p l).
Proof.
  induction l as [|h t IH]; simpl; [reflexivity|].
  destruct (Qltb (fst h) (fst p)); simpl; [now rewrite IH | reflexivity].
Qed.

Lemma sort_by_x_map (g : value -> value) (l : list (Q * value)) :
  sort_by_x (map (on_snd g) l) = map (on_snd g) (sort_by_x l).
Proof.
  induction l as [|p t IH]; simpl; [reflexivity|].
  now rewrite IH, insert_by_x_map.
Qed.

Lemma last_map {A B : Type} (f : A -> B) (l : list A) (d : A) :
  List.last (map f l) (f d) = f (List.last l d).
Proof.
  induction l as [|a l IH]; [reflexivity|].
  destruct l as [|b l]; [reflexivity|]. exact IH.
Qed.

Lemma negated_opp (v : value) : veq (negated v) (vopp v).
Proof. destruct v as [|q]; simpl; [exact I | ring]. Qed.

Lemma lerp_negated (x0 : Q) (y0 : value) (x1 : Q) (y1 : value) (t : Q) :
  veq (lerp x0 (negated y0) x1 (negated y1) t) (vopp (lerp x0 y0 x1 y1 t)).
Proof.
  destruct y0 as [|a], y1 as [|b]; simpl; try exact I.
  unfold Qdiv. ring.
Qed.

Lemma interp_negated (pts : list (Q * value)) (t : Q) :
  veq (interp (map (on_snd negated) pts) t) (vopp (interp pts t)).
Proof.
  induction pts as [|[x0 y0] pts IH]; [exact I|].
  destruct pts as [|[x1 y1] rest]; [apply negated_opp|].
  change (map (on_snd negated) ((x0, y0) :: (x1, y1) :: rest))
    with ((x0, negated y0) :: (x1, negated y1) :: map (on_snd negated) rest).
  rewrite !interp_cons2.
  destruct (Qle_bool x1 t); [exact IH|].
  destruct (Qeq_bool x0 t); [apply negated_opp | apply lerp_negated].
Qed.

Lemma evaluate_negated (p0 : Q * value) (rest : list (Q * value)) (t : Q) :
  veq (evaluate (on_snd negated p0) (map (on_snd negated) rest) NaN t)
      (vopp (evaluate p0 rest NaN t)).
Proof.
  unfold evaluate.
  change (on_snd negated p0 :: map (on_snd negated) rest)
    with (map (on_snd negated) (p0 :: rest)).
  rewrite last_map. cbn [on_snd fst].
  destruct (Qltb t (fst p0) || Qltb (fst (List.last (p0 :: rest) p0)) t);
    [exact I | apply interp_negated].
Qed.

Lemma interp1d_negated (xs : list Q) (ys : list value) (x_new : list Q)
  (br : list value) :
  interp1d xs ys NaN x_new = Ok br ->
  exists br_neg,
    interp1d xs (map negated ys) NaN x_new = Ok br_neg
    /\ Forall2 (fun h r => veq h (vopp r)) br_neg br.
Proof.
  unfold interp1d. rewrite length_map, combine_map_r, sort_by_x_map.
  destruct (negb (Nat.eqb (length xs) (length ys))); [discriminate|].
  destruct (sort_by_x (combine xs ys)) as [|p0 rest]; [discriminate|].
  intros H; injection H as <-.
  change (map (on_snd negated) (p0 :: rest))
    with (on_snd negated p0 :: map (on_snd negated) rest).
  eexists. split; [reflexivity|].
  induction x_new as [|t x_new IH]; cbn [map]; constructor; [|exact IH].
  apply evaluate_negated.
Qed.

Lemma qsign_comp (p q : Q) : p == q -> qsign p = qsign q.
Proof. intros H. unfold qsign. now rewrite H. Qed.

Lemma qsign_opp (q : Q) : qsign (- q) = - qsign q.
Proof.
  unfold qsign. destruct (q ?= 0) eqn:E.
  - apply (proj2 (Qeq_alt _ _)) in E.
    assert (H : ((- q) ?= 0) = Eq) by (apply (proj1 (Qeq_alt _ _)); lra).
    now rewrite H.
  - apply (proj2 (Qlt_alt _ _)) in E.
    assert (H : ((- q) ?= 0) = Gt) by (apply (proj1 (Qgt_alt _ _)); lra).
    now rewrite H.
  - apply (proj2 (Qgt_alt _ _)) in E.
    assert (H : ((- q) ?= 0) = Lt) by (apply (proj1 (Qlt_alt _ _)); lra).
    now rewrite H.
Qed.

Lemma sign_veq (h r : value) : veq h r -> sign h = sign r.
Proof.
  destruct h as [|p], r as [|q]; simpl; try tauto.
  intros H. now rewrite (qsign_comp p q H).
Qed.

Lemma sign_vopp (r : value) : sign (vopp r) = vopp (sign r).
Proof. destruct r as [|q]; simpl; [reflexivity | now rewrite qsign_opp]. Qed.

Section ObservedSeries.

Variable gen_dt_arr : Q -> Q -> Q -> list Q.
Variable SkyCoord : Type.
Variable create_carrington_trajectory : list Q -> string -> option Q -> SkyCoord.
Variable lon : SkyCoord -> list Q.
Variable download_br_data : list Q -> string -> list (string * tplot).

Local Abbreviation resolver :=
  (determine_carrington_interval gen_dt_arr SkyCoord create_carrington_trajectory lon).
Local Abbreviation builder :=
  (create_polarity_obs gen_dt_arr SkyCoord create_carrington_trajectory lon
                       download_br_data).

(** C10.  Let [tm], [bm] be the hourly medians of the downloaded samples as
    they are (the whole array for L1, the first column for any other body)
    and [br] their interpolation onto the hourly grid of the interval.  For L1
    the builder interpolates the medians multiplied by -1 and returns the
    opposite of the sign of [br]; for every other body it interpolates the
    medians unchanged and returns the sign of [br]. *)
Theorem create_polarity_obs_negates_L1
  (center_date : Q) (body : string) (interval : list Q) (v : tplot)
  (raw : ndarray) (tm : list Q) (bm : list value) (grid : list Q)
  (br : list value) :
  resolver center_date body = Ok interval ->
  first_variable (download_br_data interval body) = Ok v ->
  (if String.eqb body "L1" then Ok (y v)
   else (y0 <- column0 (y v) ;; Ok (Arr1 y0))) = Ok raw ->
  make_hourly_medians gen_dt_arr (x v) raw = Ok (tm, bm) ->
  gen_dt_arr_unpacked gen_dt_arr interval (1 / 24) = Ok grid ->
  interp1d tm bm NaN grid = Ok br ->
  builder center_date body false
  = Ok (grid, map (fun b => if String.eqb body "L1" then vopp (sign b) else sign b) br)
  /\ exists br_hourly,
      builder center_date body true = Ok (grid, br_hourly)
      /\ interp1d tm (map (fun b => if String.eqb body "L1" then negated b else b) bm)
                  NaN grid = Ok br_hourly
      /\ Forall2 (fun h r => veq h (if String.eqb body "L1" then vopp r else r))
                 br_hourly br.
Proof.
  intros Hres Hv Hraw Hmed Hgrid Hint.
  unfold create_polarity_obs. rewrite Hres. cbn [bind]. rewrite Hv. cbn [bind].
  destruct (String.eqb body "L1") eqn:E.
  - injection Hraw as <-. rewrite Hmed. cbn [bind]. rewrite Hgrid. cbn [bind].
    unfold datetime2unix.
    change (map (fun b => vmul b (Fin (-1 # 1))) bm) with (map negated bm).
    destruct (interp1d_negated tm bm grid br Hint) as [brn [Hn HF]].
    rewrite Hn. cbn [bind]. split.
    + do 2 f_equal. clear Hn Hint.
      induction HF as [|h r brn br Hhr _ IH]; [reflexivity|].
      cbn [map]. rewrite IH. f_equal.
      now rewrite (sign_veq _ _ Hhr), sign_vopp.
    + exists brn. repeat split; [|exact HF].
      rewrite <- Hn. f_equal.
  - destruct (column0 (y v)) as [y0|e]; [|discriminate Hraw].
    cbn [bind] in Hraw |- *. injection Hraw as <-.
    rewrite Hmed. cbn [bind]. rewrite Hgrid. cbn [bind]. unfold datetime2unix.
    rewrite Hint. cbn [bind]. split; [reflexivity|].
    exists br. repeat split.
    + rewrite <- Hint. f_equal. apply map_id.
    + clear. induction br as [|[|q] br IH]; constructor; simpl; auto.
      apply Qeq_refl.
Qed.

End ObservedSeries.

Lemma create_polarity_obs_negates_L1_witness :
  let builder :=
    create_polarity_obs Demo.gen_dt_arr (list Q) (Demo.trajectory 100 (66 # 5))
                        Demo.lon Demo.download_br_data in
  let interval := [-1166400; 1188000] in
  let v := Demo.get {| x := []; y := Arr1 [] |}
                    (first_variable (Demo.download_br_data interval "L1")) in
  let medians := Demo.get ([], []) (make_hourly_medians Demo.gen_dt_arr (x v) (y v)) in
  let grid := Demo.gen_dt_arr (-1166400) 1188000 (1 / 24) in
  let br := Demo.get [] (interp1d (fst medians) (snd medians) NaN grid) in
  builder 0 "L1"%string false
  = Ok (grid, map (fun b => if String.eqb "L1" "L1" then vopp (sign b) else sign b) br)
  /\ exists br_hourly,
      builder 0 "L1"%string true = Ok (grid, br_hourly)
      /\ interp1d (fst medians)
                  (map (fun b => if String.eqb "L1" "L1" then negated b else b)
                       (snd medians))
                  NaN grid = Ok br_hourly
      /\ Forall2 (fun h r => veq h (if String.eqb "L1" "L1" then vopp r else r))
                 br_hourly br.
Proof.
  intros builder interval v medians grid br.
  apply (create_polarity_obs_negates_L1
           Demo.gen_dt_arr (list Q) (Demo.trajectory 100 (66 # 5)) Demo.lon
           Demo.download_br_data 0 "L1"%string interval v (y v)
           (fst medians) (snd medians) grid br).
  - vm_compute. reflexivity.
  - vm_compute. reflexivity.
  - reflexivity.
  - vm_compute. reflexivity.
  - vm_compute. reflexivity.
  - vm_compute. reflexivity.
Defined.

(** * Further properties *)

(** ** The scorer: errors, range and value of the score *)

Lemma needs_resampling_same (ts : list Q) :
  ts <> [] -> needs_resampling ts ts = Ok false.
Proof.
  intros Hne. unfold needs_resampling.
  destruct (first ts) as [t0|] eqn:E0; [|destruct ts; [congruence | discriminate]].
  destruct (last ts) as [tN|] eqn:EN.
  - simpl. now rewrite Nat.eqb_refl, !Qeq_bool_refl.
  - exfalso. clear E0. induction ts as [|a [|b r] IH]; try congruence; try discriminate.
    apply IH; [discriminate | exact EN].
Qed.

Lemma multiply_same_length (a b : list value) :
  length a = length b -> multiply a b = Ok (map2 vmul a b).
Proof. intros H. unfold multiply, broadcast. now rewrite H, Nat.eqb_refl. Qed.

Lemma nansum_ones (mult : list value) :
  exists q, nansum (filter eq_one mult) = Fin q
            /\ q == inject_Z (Z.of_nat (length (filter eq_one mult))).
Proof.
  induction mult as [|[|p] mult [q [Hq Hc]]]; simpl.
  - exists 0. split; reflexivity.
  - now exists q.
  - destruct (Qeq_bool p 1) eqn:E.
    + apply Qeq_bool_iff in E. simpl. rewrite Hq. simpl.
      exists (p + q). split; [reflexivity|].
      rewrite Zpos_P_of_succ_nat, <- Z.add_1_l, inject_Z_plus, E, Hc. reflexivity.
    + now exists q.
Qed.

Lemma NL_score_value (mult : list value) :
  mult <> [] ->
  exists s, NL_score mult = Fin s
            /\ s == inject_Z (Z.of_nat (length (filter eq_one mult)))
                    / inject_Z (Z.of_nat (length mult)).
Proof.
  intros Hne. rewrite NL_score_denominator.
  destruct (nansum_ones mult) as [q [Hq Hc]]. rewrite Hq.
  destruct mult as [|v mult]; [congruence|].
  cbn [length true_divide]. eexists. split; [reflexivity|].
  now rewrite Hc.
Qed.

Lemma NL_score_nil : NL_score [] = NaN.
Proof. reflexivity. Qed.

Lemma count_over_length_range (c n : nat) :
  (c <= n)%nat -> (0 < n)%nat ->
  0 <= inject_Z (Z.of_nat c) / inject_Z (Z.of_nat n) <= 1.
Proof.
  intros Hc Hn.
  assert (Hpos : 0 < inject_Z (Z.of_nat n)).
  { change 0 with (inject_Z 0). rewrite <- Zlt_Qlt. lia. }
  split.
  - apply Qle_shift_div_l; [exact Hpos|]. rewrite Qmult_0_l.
    change 0 with (inject_Z 0). rewrite <- Zle_Qle. lia.
  - apply Qle_shift_div_r; [exact Hpos|]. rewrite Qmult_1_l.
    rewrite <- Zle_Qle. lia.
Qed.

(** X1.  A series without timestamps, on either side, makes the scorer raise
    [IndexError] (from [model_tstamps[0]] or [obs_tstamps[0]]). *)
Theorem compute_NL_metric_empty_series
  (model_tseries obs_tseries : list Q * list value) :
  fst model_tseries = [] \/ fst obs_tseries = [] ->
  compute_NL_metric model_tseries obs_tseries = Raise IndexError.
Proof.
  destruct model_tseries as [mt mv], obs_tseries as [ot ov].
  unfold compute_NL_metric, aligned_obs_pol, needs_resampling, datetime2unix.
  cbn [fst snd]. intros [-> | ->].
  - reflexivity.
  - destruct mt; reflexivity.
Qed.

Lemma compute_NL_metric_empty_series_witness :
  compute_NL_metric ([0; 3600], [Fin 1; Fin 1]) ([], []) = Raise IndexError.
Proof.
  apply (compute_NL_metric_empty_series ([0; 3600], [Fin 1; Fin 1]) ([], [])).
  right. reflexivity.
Defined.

(** X2.  Whenever the scorer returns a number, it lies between 0 and 1. *)
Theorem compute_NL_metric_range
  (model_tseries obs_tseries : list Q * list value) (q : Q) :
  compute_NL_metric model_tseries obs_tseries = Ok (Fin q) -> 0 <= q <= 1.
Proof.
  unfold compute_NL_metric.
  destruct (aligned_obs_pol model_tseries obs_tseries) as [obs_pol|]; [|discriminate].
  cbn [bind].
  destruct (multiply obs_pol (map sign (snd model_tseries))) as [mult|]; [|discriminate].
  cbn [bind]. intros H. injection H as H.
  destruct mult as [|v mult]; [discriminate H|].
  destruct (NL_score_value (v :: mult)) as [s [Hs Hv]]; [discriminate|].
  rewrite Hs in H. injection H as <-. rewrite Hv.
  apply count_over_length_range.
  - apply filter_length_le.
  - simpl. lia.
Qed.

Lemma compute_NL_metric_range_witness :
  compute_NL_metric ([0; 3600; 7200], [Fin 1; Fin (-1); Fin 1])
                    ([0; 7200], [Fin 1; Fin 1]) = Ok (Fin (2 # 3))
  /\ 0 <= 2 # 3 <= 1.
Proof.
  split; [reflexivity|].
  apply (compute_NL_metric_range
           ([0; 3600; 7200], [Fin 1; Fin (-1); Fin 1]) ([0; 7200], [Fin 1; Fin 1])).
  reflexivity.
Defined.

Lemma Qltb_0_r (a : Q) :
  Qltb a 0 = match a ?= 0 with Lt => true | _ => false end.
Proof.
  destruct (a ?= 0) eqn:E.
  - apply (proj2 (Qeq_alt _ _)) in E. apply Qltb_ge. lra.
  - apply (proj2 (Qlt_alt _ _)) in E. now apply Qltb_lt.
  - apply (proj2 (Qgt_alt _ _)) in E. apply Qltb_ge. lra.
Qed.

Lemma Qltb_0_l (a : Q) :
  Qltb 0 a = match a ?= 0 with Gt => true | _ => false end.
Proof.
  destruct (a ?= 0) eqn:E.
  - apply (proj2 (Qeq_alt _ _)) in E. apply Qltb_ge. lra.
  - apply (proj2 (Qlt_alt _ _)) in E. apply Qltb_ge. lra.
  - apply (proj2 (Qgt_alt _ _)) in E. now apply Qltb_lt.
Qed.

Lemma sign_product_agree (m o : value) :
  eq_one (vmul (sign o) (sign m)) = agree m o.
Proof.
  destruct m as [|a], o as [|b]; try reflexivity.
  unfold agree. rewrite !Qltb_0_l, !Qltb_0_r. simpl. unfold qsign.
  destruct (a ?= 0), (b ?= 0); reflexivity.
Qed.

Lemma agreements_count (mv ov : list value) :
  length (filter eq_one (map2 vmul (map sign ov) (map sign mv))) = agreements mv ov.
Proof.
  unfold agreements. revert ov. induction mv as [|m mv IH]; intros [|o ov];
    try reflexivity.
  cbn [map map2 combine filter fst snd]. rewrite sign_product_agree.
  destruct (agree m o); cbn [length]; now rewrite IH.
Qed.

Lemma score_on_common_grid
  (mt : list Q) (mv : list value) (ot : list Q) (ov : list value) :
  needs_resampling mt ot = Ok false ->
  length mv = length ov ->
  mv <> [] ->
  exists q,
    compute_NL_metric (mt, mv) (ot, ov) = Ok (Fin q)
    /\ q == inject_Z (Z.of_nat (agreements mv ov))
            / inject_Z (Z.of_nat (length mv)).
Proof.
  intros Hc Hlen Hne.
  unfold compute_NL_metric, aligned_obs_pol, datetime2unix. cbn [fst snd].
  rewrite Hc. cbn [bind].
  rewrite multiply_same_length by (now rewrite !length_map). cbn [bind].
  set (mult := map2 vmul (map sign ov) (map sign mv)).
  assert (Hl : length mult = length mv).
  { unfold mult. rewrite length_map2, !length_map, Hlen. apply Nat.min_id. }
  destruct (NL_score_value mult) as [s [Hs Hv]].
  { intros E. rewrite E in Hl. destruct mv; [congruence | discriminate Hl]. }
  exists s. split; [now rewrite Hs|].
  rewrite Hv, Hl. unfold mult. now rewrite agreements_count.
Qed.

(** X3.  On series that need no resampling, with as many observed as model
    values, the score is the number of indices at which both values are
    present and have the same non-zero sign, divided by the number of
    indices. *)
Theorem compute_NL_metric_counts_agreements
  (model_tstamps : list Q) (model_values : list value)
  (obs_tstamps : list Q) (obs_values : list value) :
  needs_resampling model_tstamps obs_tstamps = Ok false ->
  length model_values = length obs_values ->
  model_values <> [] ->
  exists q,
    compute_NL_metric (model_tstamps, model_values) (obs_tstamps, obs_values)
    = Ok (Fin q)
    /\ q == inject_Z (Z.of_nat (agreements model_values obs_values))
            / inject_Z (Z.of_nat (length model_values)).
Proof. apply score_on_common_grid. Qed.

Lemma compute_NL_metric_counts_agreements_witness :
  exists q,
    compute_NL_metric ([0; 3600; 7200; 10800], [Fin 1; Fin (-1); Fin 1; Fin (-1)])
                      ([0; 3600; 7200; 10800], [Fin 1; Fin 1; Fin 1; Fin (-1)])
    = Ok (Fin q)
    /\ q == inject_Z (Z.of_nat (agreements [Fin 1; Fin (-1); Fin 1; Fin (-1)]
                                           [Fin 1; Fin 1; Fin 1; Fin (-1)]))
            / inject_Z (Z.of_nat (length [Fin 1; Fin (-1); Fin 1; Fin (-1)])).
Proof.
  apply (compute_NL_metric_counts_agreements
           [0; 3600; 7200; 10800] [Fin 1; Fin (-1); Fin 1; Fin (-1)]
           [0; 3600; 7200; 10800] [Fin 1; Fin 1; Fin 1; Fin (-1)]).
  - reflexivity.
  - reflexivity.
  - discriminate.
Defined.

Lemma agree_same (a : Q) : ~ a == 0 -> agree (Fin a) (Fin a) = true.
Proof.
  intros Ha. unfold agree. rewrite Qltb_0_l, Qltb_0_r.
  destruct (a ?= 0) eqn:E; try reflexivity.
  apply (proj2 (Qeq_alt _ _)) in E. contradiction.
Qed.

Lemma agree_opposite (v : value) : agree v (vopp v) = false.
Proof.
  destruct v as [|a]; [reflexivity|]. unfold agree, vopp.
  rewrite !Qltb_0_l, !Qltb_0_r.
  destruct (a ?= 0) eqn:E; try reflexivity.
  - apply (proj2 (Qlt_alt _ _)) in E.
    assert (H : ((- a) ?= 0) = Gt) by (apply (proj1 (Qgt_alt _ _)); lra).
    now rewrite H.
  - apply (proj2 (Qgt_alt _ _)) in E.
    assert (H : ((- a) ?= 0) = Lt) by (apply (proj1 (Qlt_alt _ _)); lra).
    now rewrite H.
Qed.

(** X4.  A series whose values are all present and non-zero, scored against
    itself, has score 1. *)
Theorem compute_NL_metric_identical (tstamps : list Q) (values : list value) :
  tstamps <> [] -> values <> [] ->
  Forall (fun v => exists a, v = Fin a /\ ~ a == 0) values ->
  exists q,
    compute_NL_metric (tstamps, values) (tstamps, values) = Ok (Fin q) /\ q == 1.
Proof.
  intros Ht Hv Hall.
  destruct (score_on_common_grid tstamps values tstamps values) as [q [Hq Hc]];
    [now apply needs_resampling_same | reflexivity | exact Hv|].
  exists q. split; [exact Hq|]. rewrite Hc.
  assert (E : agreements values values = length values).
  { unfold agreements. clear -Hall.
    induction Hall as [|v vs [a [-> Ha]] _ IH]; [reflexivity|].
    cbn [combine filter fst snd]. rewrite (agree_same a Ha). cbn [length].
    now rewrite IH. }
  rewrite E. field.
  destruct values; [congruence|]. intros H.
  apply (inject_Z_injective _ 0%Z) in H. discriminate H.
Qed.

Lemma compute_NL_metric_identical_witness :
  exists q,
    compute_NL_metric ([0; 3600; 7200], [Fin 5; Fin (-2); Fin (1 # 3)])
                      ([0; 3600; 7200], [Fin 5; Fin (-2); Fin (1 # 3)]) = Ok (Fin q)
    /\ q == 1.
Proof.
  apply (compute_NL_metric_identical [0; 3600; 7200] [Fin 5; Fin (-2); Fin (1 # 3)]).
  - discriminate.
  - discriminate.
  - repeat (apply Forall_cons; [eexists; split; [reflexivity | intros H; discriminate H]|]).
    apply Forall_nil.
Defined.

(** X5.  A series scored against its own negation on the same timestamps has
    score 0, whatever its values. *)
Theorem compute_NL_metric_opposite (tstamps : list Q) (values : list value) :
  tstamps <> [] -> values <> [] ->
  exists q,
    compute_NL_metric (tstamps, values) (tstamps, map vopp values) = Ok (Fin q)
    /\ q == 0.
Proof.
  intros Ht Hv.
  destruct (score_on_common_grid tstamps values tstamps (map vopp values))
    as [q [Hq Hc]];
    [now apply needs_resampling_same | now rewrite length_map | exact Hv|].
  exists q. split; [exact Hq|]. rewrite Hc.
  assert (E : agreements values (map vopp values) = 0%nat).
  { unfold agreements. clear. induction values as [|v vs IH]; [reflexivity|].
    cbn [map combine filter fst snd]. now rewrite agree_opposite. }
  rewrite E. unfold Qdiv. apply Qmult_0_l.
Qed.

Lemma compute_NL_metric_opposite_witness :
  exists q,
    compute_NL_metric ([0; 3600; 7200], [Fin 5; NaN; Fin 0])
                      ([0; 3600; 7200], map vopp [Fin 5; NaN; Fin 0]) = Ok (Fin q)
    /\ q == 0.
Proof.
  apply (compute_NL_metric_opposite [0; 3600; 7200] [Fin 5; NaN; Fin 0]);
    discriminate.
Defined.

Lemma sign_idempotent (v : value) : sign (sign v) = sign v.
Proof.
  destruct v as [|a]; [reflexivity|]. simpl. f_equal. unfold qsign.
  destruct (a ?= 0); reflexivity.
Qed.

(** X6.  The score depends on the values only through their signs: replacing
    both series by their polarities leaves the result (value or error)
    unchanged. *)
Theorem compute_NL_metric_of_polarities
  (model_tseries obs_tseries : list Q * list value) :
  compute_NL_metric (fst model_tseries, map sign (snd model_tseries))
                    (fst obs_tseries, map sign (snd obs_tseries))
  = compute_NL_metric model_tseries obs_tseries.
Proof.
  destruct model_tseries as [mt mv], obs_tseries as [ot ov].
  unfold compute_NL_metric, aligned_obs_pol. cbn [fst snd].
  rewrite !map_map.
  rewrite (map_ext (fun v => sign (sign v)) sign sign_idempotent mv).
  now rewrite (map_ext (fun v => sign (sign v)) sign sign_idempotent ov).
Qed.

Lemma interp1d_fill_outside (xs : list Q) (ys : list value) (fill_value : value)
  (x_new : list Q) (out : list value) (k : nat) (t : Q) :
  interp1d xs ys fill_value x_new = Ok out ->
  nth_error x_new k = Some t ->
  (forall u, In u xs -> t < u) \/ (forall u, In u xs -> u < t) ->
  nth_error out k = Some fill_value.
Proof.
  unfold interp1d.
  destruct (negb (Nat.eqb (length xs) (length ys))); [discriminate|].
  destruct (sort_by_x (combine xs ys)) as [|p0 rest] eqn:Hsort; [discriminate|].
  intros H Hk Hout. injection H as <-.
  assert (Hpts : forall p, In p (p0 :: rest) -> In (fst p) xs).
  { intros [px py] Hp. rewrite <- Hsort in Hp.
    apply (proj1 (sort_by_x_In _ _)) in Hp. now apply in_combine_l in Hp. }
  rewrite nth_error_map, Hk. unfold option_map, evaluate. f_equal.
  destruct Hout as [Hbelow | Habove].
  - assert (E : Qltb t (fst p0) = true).
    { apply Qltb_lt, Hbelow, Hpts. now left. }
    now rewrite E.
  - assert (E : Qltb (fst (List.last (p0 :: rest) p0)) t = true).
    { apply Qltb_lt, Habove, Hpts. apply last_In. }
    rewrite E. now rewrite orb_true_r.
Qed.

(** X7.  When the observed series is resampled, every model timestamp that
    lies before all observed timestamps, or after all of them, gets the
    observed polarity NaN (no extrapolation). *)
Theorem aligned_obs_pol_outside_is_nan
  (model_tseries obs_tseries : list Q * list value) (obs_pol : list value)
  (k : nat) (t : Q) :
  needs_resampling (fst model_tseries) (fst obs_tseries) = Ok true ->
  aligned_obs_pol model_tseries obs_tseries = Ok obs_pol ->
  nth_error (fst model_tseries) k = Some t ->
  (forall u, In u (fst obs_tseries) -> t < u)
  \/ (forall u, In u (fst obs_tseries) -> u < t) ->
  nth_error obs_pol k = Some NaN.
Proof.
  intros Hc. unfold aligned_obs_pol, datetime2unix. rewrite Hc. cbn [bind].
  apply interp1d_fill_outside.
Qed.

Lemma aligned_obs_pol_outside_is_nan_witness :
  aligned_obs_pol ([0; 3600; 7200; 10800], [Fin 1; Fin 1; Fin 1; Fin 1])
                  ([3600; 7200], [Fin 2; Fin (-2)])
  = Ok [NaN; Fin 1; Fin (-1 # 1); NaN]
  /\ nth_error [NaN; Fin 1; Fin (-1 # 1); NaN] 3 = Some NaN.
Proof.
  split; [vm_compute; reflexivity|].
  apply (aligned_obs_pol_outside_is_nan
           ([0; 3600; 7200; 10800], [Fin 1; Fin 1; Fin 1; Fin 1])
           ([3600; 7200], [Fin 2; Fin (-2)]) _ 3%nat 10800).
  - reflexivity.
  - vm_compute. reflexivity.
  - reflexivity.
  - right. intros u [<-|[<-|[]]]; reflexivity.
Defined.

(** ** The interval resolver: order, antipode and position of the crossings *)

Lemma carr_inds_increasing (d : list Q) : StronglySorted lt (carr_inds d).
Proof.
  unfold carr_inds, where_.
  generalize (where_from_increasing (map (fun j => Qltb 180 j) (diff d)) 0).
  generalize (where_from 0 (map (fun j => Qltb 180 j) (diff d))).
  induction 1 as [|k l Hs IH Hall]; simpl; constructor; [exact IH|].
  rewrite Forall_map. eapply Forall_impl; [|exact Hall]. simpl. intros; lia.
Qed.

Lemma carr_inds_In (d : list Q) (k : nat) :
  In k (carr_inds d)
  <-> exists i a b,
      k = S i /\ nth_error d i = Some a /\ nth_error d (S i) = Some b
      /\ 180 < b - a.
Proof.
  unfold carr_inds, where_. rewrite in_map_iff. split.
  - intros [j [<- Hj]]. apply where_from_spec in Hj.
    destruct Hj as [i [-> Hi]]. simpl in Hi.
    rewrite nth_error_map in Hi. unfold diff in Hi.
    rewrite nth_error_map2, nth_error_tl in Hi.
    destruct (nth_error d (S i)) as [b|] eqn:Eb; [|discriminate].
    destruct (nth_error d i) as [a|] eqn:Ea; [|discriminate].
    simpl in Hi. injection Hi as Hi. apply Qltb_lt in Hi.
    now exists i, a, b.
  - intros [i [a [b [-> [Ea [Eb Hj]]]]]]. exists i. split; [reflexivity|].
    apply where_from_spec. exists i. split; [reflexivity|].
    rewrite nth_error_map. unfold diff.
    rewrite nth_error_map2, nth_error_tl, Eb, Ea. simpl.
    f_equal. now apply Qltb_lt.
Qed.

Lemma fmod_360_range (u : Q) : 0 <= fmod u 360 < 360.
Proof.
  unfold fmod.
  pose proof (Qfloor_le (u / 360)) as H1. pose proof (Qlt_floor (u / 360)) as H2.
  rewrite inject_Z_plus in H2.
  assert (E : u == u / 360 * 360) by field.
  set (z := inject_Z (Qfloor (u / 360))) in *. set (y := u / 360) in *.
  change (inject_Z 1) with 1 in H2. lra.
Qed.

Lemma Qltb_180_comp (p q : Q) : p == q -> Qltb 180 p = Qltb 180 q.
Proof.
  intros H. destruct (Qltb 180 q) eqn:E.
  - apply Qltb_lt. apply Qltb_lt in E. lra.
  - apply Qltb_ge. apply Qltb_ge in E. lra.
Qed.

Lemma jumps_comp (a a' b b' : list Q) :
  Forall2 Qeq a a' -> Forall2 Qeq b b' ->
  map (fun j => Qltb 180 j) (map2 Qminus a b)
  = map (fun j => Qltb 180 j) (map2 Qminus a' b').
Proof.
  intros Ha. revert b b'. induction Ha as [|u u' a a' Hu Ha IH]; intros b b' Hb.
  - reflexivity.
  - destruct Hb as [|v v' b b' Hv Hb]; [reflexivity|].
    cbn [map2 map]. rewrite (IH _ _ Hb). f_equal.
    apply Qltb_180_comp. lra.
Qed.

Lemma carr_inds_comp (d d' : list Q) : Forall2 Qeq d d' -> carr_inds d = carr_inds d'.
Proof.
  intros H. unfold carr_inds, where_, diff. f_equal. f_equal.
  apply jumps_comp; [|exact H]. destruct H; [constructor | exact H0].
Qed.

Section ResolverFacts.

Variable gen_dt_arr : Q -> Q -> Q -> list Q.
Variable SkyCoord : Type.
Variable create_carrington_trajectory : list Q -> string -> option Q -> SkyCoord.
Variable lon : SkyCoord -> list Q.

(** X8.  When the two-month window is in increasing order, the timestamps the
    resolver returns are in increasing order too, and each of them is a
    window timestamp other than the first. *)
Theorem determine_carrington_interval_chronological
  (center_date : Q) (body : string) (interval : list Q) :
  StronglySorted Qlt (gen_dt_arr (center_date - days 30) (center_date + days 30) (6 / 24)) ->
  determine_carrington_interval gen_dt_arr SkyCoord create_carrington_trajectory
    lon center_date body = Ok interval ->
  StronglySorted Qlt interval
  /\ forall t, In t interval -> In t (tl (gen_dt_arr (center_date - days 30) (center_date + days 30) (6 / 24))).
Proof.
  intros Hw. unfold determine_carrington_interval.
  destruct (subtract _ _) as [delta|]; [|discriminate]. cbn [bind].
  intros Ht. split.
  - eapply take_increasing; [exact Hw | apply carr_inds_increasing | exact Ht].
  - intros t Hin. apply take_Forall2 in Ht.
    destruct (Forall2_In_r _ _ _ _ Ht Hin) as [k [Hk Hnth]].
    apply carr_inds_In in Hk. destruct Hk as [i [a [b [-> _]]]].
    rewrite <- nth_error_tl in Hnth. now apply nth_error_In in Hnth.
Qed.

(** X9.  The interval is the one obtained with the antipode reduced modulo
    360: adding 180 without the reduction changes no flagged index. *)
Theorem determine_carrington_interval_antipode_mod_360
  (center_date : Q) (body : string) (lon0 : Q) :
  lon (create_carrington_trajectory [center_date] body None) = [lon0] ->
  determine_carrington_interval gen_dt_arr SkyCoord create_carrington_trajectory
    lon center_date body
  = take (gen_dt_arr (center_date - days 30) (center_date + days 30) (6 / 24))
         (carr_inds
            (map (fun l => fmod (l - spec_antipode lon0) 360)
                 (lon (create_carrington_trajectory (gen_dt_arr (center_date - days 30) (center_date + days 30) (6 / 24)) body None)))).
Proof.
  intros H0. unfold determine_carrington_interval. rewrite H0.
  change (inst_antipode [lon0]) with [lon0 + 180].
  unfold subtract. rewrite broadcast_singleton_r. cbn [bind].
  f_equal. rewrite map_map. apply carr_inds_comp.
  induction (lon (create_carrington_trajectory (gen_dt_arr (center_date - days 30) (center_date + days 30) (6 / 24)) body None))
    as [|l ls IH]; constructor; [|exact IH].
  apply circular_difference_unaffected.
Qed.

End ResolverFacts.

(** X10.  Every timestamp the resolver flags is the first sample after the
    circular difference has wrapped upward: the difference is below 180 at
    the sample before and above 180 at the flagged sample. *)
Theorem carr_inds_straddle_180 (delta : list Q) (k : nat) :
  In k (carr_inds (map (fun d => fmod d 360) delta)) ->
  exists i a b,
    k = S i
    /\ nth_error (map (fun d => fmod d 360) delta) i = Some a
    /\ nth_error (map (fun d => fmod d 360) delta) (S i) = Some b
    /\ 0 <= a < 180 /\ 180 < b < 360.
Proof.
  intros Hk. apply carr_inds_In in Hk.
  destruct Hk as [i [a [b [-> [Ha [Hb Hj]]]]]].
  exists i, a, b. repeat split; try assumption.
  all: rewrite nth_error_map in Ha, Hb;
    destruct (nth_error delta i) as [u|]; [|discriminate];
    destruct (nth_error delta (S i)) as [v|]; [|discriminate];
    injection Ha as <-; injection Hb as <-;
    pose proof (fmod_360_range u); pose proof (fmod_360_range v); lra.
Qed.

Lemma arith_seq_lower (n : nat) (t step u : Q) :
  0 < step -> In u (Demo.arith_seq n t step) -> t <= u.
Proof.
  intros Hs. revert t. induction n as [|n IH]; intros t Hin; [destruct Hin|].
  destruct Hin as [<-|Hin]; [apply Qle_refl|].
  apply IH in Hin. lra.
Qed.

Lemma arith_seq_increasing (n : nat) (t step : Q) :
  0 < step -> StronglySorted Qlt (Demo.arith_seq n t step).
Proof.
  intros Hs. revert t. induction n as [|n IH]; intros t; simpl; constructor.
  - apply IH.
  - apply Forall_forall. intros u Hu. apply (arith_seq_lower _ _ _ _ Hs) in Hu. lra.
Qed.

Lemma determine_carrington_interval_chronological_witness :
  StronglySorted Qlt [-1166400; 1188000]
  /\ forall t, In t [-1166400; 1188000] ->
               In t (tl (Demo.gen_dt_arr (0 - days 30) (0 + days 30) (6 / 24))).
Proof.
  apply (determine_carrington_interval_chronological
           Demo.gen_dt_arr (list Q) (Demo.trajectory 100 (66 # 5)) Demo.lon
           0 "earth" [-1166400; 1188000]).
  - apply arith_seq_increasing. reflexivity.
  - vm_compute. reflexivity.
Defined.

Lemma determine_carrington_interval_antipode_mod_360_witness :
  determine_carrington_interval Demo.gen_dt_arr (list Q)
    (Demo.trajectory 200 (66 # 5)) Demo.lon 0 "earth"
  = take (Demo.gen_dt_arr (0 - days 30) (0 + days 30) (6 / 24))
         (carr_inds
            (map (fun l => fmod (l - spec_antipode 200) 360)
                 (Demo.lon
                    (Demo.trajectory 200 (66 # 5)
                       (Demo.gen_dt_arr (0 - days 30) (0 + days 30) (6 / 24))
                       "earth" None)))).
Proof.
  apply (determine_carrington_interval_antipode_mod_360
           Demo.gen_dt_arr (list Q) (Demo.trajectory 200 (66 # 5)) Demo.lon
           0 "earth" 200).
  vm_compute. reflexivity.
Defined.

Lemma carr_inds_straddle_180_witness :
  exists i a b,
    1%nat = S i
    /\ nth_error (map (fun d => fmod d 360) [5; -5; -20]) i = Some a
    /\ nth_error (map (fun d => fmod d 360) [5; -5; -20]) (S i) = Some b
    /\ 0 <= a < 180 /\ 180 < b < 360.
Proof.
  apply (carr_inds_straddle_180 [5; -5; -20] 1).
  vm_compute. left. reflexivity.
Defined.

(** ** The hourly reducer: errors, shapes, partitions and range of the medians *)

Lemma mapM_raises {A B : Type} (f : A -> result B) (l : list A) (e : exn) :
  (forall a, In a l -> f a = Raise e \/ exists b, f a = Ok b) ->
  (exists a, In a l /\ f a = Raise e) ->
  mapM f l = Raise e.
Proof.
  induction l as [|a l IH]; intros Hall [a0 [Hin Ha0]]; [destruct Hin|].
  simpl. destruct (Hall a (or_introl eq_refl)) as [Hr | [b Hb]].
  - now rewrite Hr.
  - rewrite Hb. cbn [bind]. rewrite IH; [reflexivity | |].
    + intros x Hx. apply Hall. now right.
    + destruct Hin as [->|Hin]; [congruence|]. now exists a0.
Qed.

Lemma first_where_from_cases (timestamps : list Q) (te : Q) (s : nat) :
  first (where_from s (map (fun t => Qltb te t) timestamps)) = Raise IndexError
  \/ exists i, first (where_from s (map (fun t => Qltb te t) timestamps)) = Ok i.
Proof.
  destruct (where_from s (map (fun t => Qltb te t) timestamps)) as [|i r];
    [now left | right; now exists i].
Qed.

Lemma first_where_from_none (timestamps : list Q) (te : Q) (s : nat) :
  (forall t, In t timestamps -> t <= te) ->
  first (where_from s (map (fun t => Qltb te t) timestamps)) = Raise IndexError.
Proof.
  revert s. induction timestamps as [|t ts IH]; intros s Hall; [reflexivity|].
  simpl. assert (E : Qltb te t = false) by (apply Qltb_ge, Hall; now left).
  rewrite E. simpl. apply IH. intros u Hu. apply Hall. now right.
Qed.

Lemma length_removelast {A : Type} (l : list A) :
  length (removelast l) = (length l - 1)%nat.
Proof.
  induction l as [|a [|b l] IH]; try reflexivity.
  change (removelast (a :: b :: l)) with (a :: removelast (b :: l)).
  cbn [length] in *. rewrite IH. lia.
Qed.

Lemma slice_skipn {A : Type} (a : list A) (st i : nat) :
  (st <= i)%nat -> slice a st i ++ skipn i a = skipn st a.
Proof.
  intros H. unfold slice.
  replace (skipn i a) with (skipn (i - st) (skipn st a)).
  - apply firstn_skipn.
  - rewrite skipn_skipn. f_equal. lia.
Qed.

Lemma concat_split_from {A : Type} (a : list A) (st : nat) (indices : list nat) :
  StronglySorted le (st :: indices) ->
  concat (split_from a st indices) = skipn st a.
Proof.
  revert st. induction indices as [|i r IH]; intros st Hs.
  - simpl. rewrite app_nil_r. unfold slice. apply firstn_all2.
    rewrite length_skipn. lia.
  - apply StronglySorted_inv in Hs. destruct Hs as [Hs Hall].
    cbn [split_from concat]. rewrite (IH i Hs).
    apply slice_skipn. inversion Hall; assumption.
Qed.

Lemma slice_incl {A : Type} (a : list A) (st en : nat) (u : A) :
  In u (slice a st en) -> In u a.
Proof.
  unfold slice. intros H.
  assert (H' : In u (skipn st a)).
  { rewrite <- (firstn_skipn (en - st) (skipn st a)). apply in_or_app. now left. }
  rewrite <- (firstn_skipn st a). apply in_or_app. now right.
Qed.

Lemma split_from_incl {A : Type} (a : list A) (st : nat) (indices : list nat)
  (part : list A) (u : A) :
  In part (split_from a st indices) -> In u part -> In u a.
Proof.
  revert st. induction indices as [|i r IH]; intros st Hp Hu; simpl in Hp.
  - destruct Hp as [<-|[]]. now apply slice_incl in Hu.
  - destruct Hp as [<-|Hp]; [now apply slice_incl in Hu | now apply (IH i)].
Qed.

Lemma insert_sorted_In (q u : Q) (l : list Q) :
  In u (insert_sorted q l) <-> u = q \/ In u l.
Proof.
  induction l as [|h t IH]; simpl; [intuition congruence|].
  destruct (Qle_bool q h); simpl; rewrite ?IH; intuition congruence.
Qed.

Lemma sort_In (u : Q) (l : list Q) : In u (sort l) <-> In u l.
Proof.
  induction l as [|q t IH]; simpl; [tauto|].
  rewrite insert_sorted_In, IH. intuition congruence.
Qed.

Lemma finite_part_In (u : Q) (a : list value) : In u (finite_part a) <-> In (Fin u) a.
Proof.
  induction a as [|[|q] a IH]; simpl; [tauto | |].
  - rewrite IH. intuition discriminate.
  - rewrite IH. intuition congruence.
Qed.

Lemma nanmedian_range (a : list value) (lo hi m : Q) :
  (forall u, In (Fin u) a -> lo <= u <= hi) ->
  nanmedian a = Fin m -> lo <= m <= hi.
Proof.
  intros Hall. unfold nanmedian.
  assert (Hs : forall u, In u (sort (finite_part a)) -> lo <= u <= hi).
  { intros u Hu. apply Hall. now apply finite_part_In, sort_In. }
  destruct (sort (finite_part a)) as [|q s] eqn:E; [discriminate|].
  remember (length (q :: s)) as n eqn:En.
  assert (Hn : (0 < n)%nat) by (subst n; simpl; lia).
  assert (H1 : (n / 2 < length (q :: s))%nat) by (rewrite <- En; apply Nat.div_lt; lia).
  assert (H2 : (n / 2 - 1 < length (q :: s))%nat) by lia.
  pose proof (Hs _ (nth_In (q :: s) 0 H1)) as B1.
  pose proof (Hs _ (nth_In (q :: s) 0 H2)) as B2.
  remember (nth (n / 2) (q :: s) 0) as v eqn:Ev.
  remember (nth (n / 2 - 1) (q :: s) 0) as u eqn:Eu.
  clear Ev Eu E Hs.
  destruct (Nat.even n); intros H; injection H as <-; [|exact B1].
  split.
  - apply Qle_shift_div_l; [reflexivity | lra].
  - apply Qle_shift_div_r; [reflexivity | lra].
Qed.

Lemma mapM_raise_inv {A B : Type} (f : A -> result B) (l : list A) (e : exn) :
  mapM f l = Raise e -> exists a, In a l /\ f a = Raise e.
Proof.
  induction l as [|a l IH]; simpl; [discriminate|].
  destruct (f a) as [b|e'] eqn:E; cbn [bind].
  - destruct (mapM f l) as [bs|e'']; cbn [bind]; [discriminate|].
    intros H; injection H as ->. destruct (IH eq_refl) as [x [Hx Hf]].
    exists x. split; [now right | exact Hf].
  - intros H; injection H as ->. exists a. split; [now left | exact E].
Qed.

Lemma first_where_from_raise (timestamps : list Q) (te : Q) (s : nat) (e : exn) :
  first (where_from s (map (fun t => Qltb te t) timestamps)) = Raise e ->
  e = IndexError /\ forall t, In t timestamps -> t <= te.
Proof.
  revert s. induction timestamps as [|t ts IH]; intros s; simpl.
  - intros H; injection H as <-. split; [reflexivity | intros t []].
  - destruct (Qltb te t) eqn:E; simpl; [discriminate|].
    intros H. destruct (IH _ H) as [-> Hall]. split; [reflexivity|].
    intros u [<-|Hu]; [now apply Qltb_ge | now apply Hall].
Qed.

Lemma first_exceeding_monotone (timestamps : list Q) (te te' : Q) (i j : nat) :
  te <= te' -> first_exceeding timestamps te i -> first_exceeding timestamps te' j ->
  (i <= j)%nat.
Proof.
  intros Hle [_ Hmin] [[t [Ht Hlt]] _].
  destruct (Nat.le_gt_cases i j) as [H|H]; [exact H|].
  specialize (Hmin j t H Ht). lra.
Qed.

Section ReducerFacts.

Variable gen_dt_arr : Q -> Q -> Q -> list Q.

Lemma make_hourly_medians_raises_spec
  (datetimes : list Q) (data : ndarray) (e : exn) :
  make_hourly_medians gen_dt_arr datetimes data = Raise e
  <-> e = IndexError
      /\ (datetimes = []
          \/ exists t_first t_last te,
              first datetimes = Ok t_first /\ last datetimes = Ok t_last
              /\ In te (removelast (tl (gen_dt_arr t_first t_last (1 / 24))))
              /\ forall t, In t datetimes -> t <= te).
Proof.
  unfold make_hourly_medians. split.
  - destruct datetimes as [|d ds].
    + intros H; injection H as <-. split; [reflexivity | now left].
    + destruct (last (d :: ds)) as [tN|] eqn:EN.
      2:{ exfalso. clear -EN. revert d EN. induction ds as [|b r IH]; intros d EN;
          [discriminate | now apply (IH b)]. }
      cbn [first bind].
      destruct (mapM _ _) as [argsplit|e'] eqn:EM; cbn [bind]; [discriminate|].
      intros H; injection H as ->.
      apply mapM_raise_inv in EM. destruct EM as [te [Hin Hte]].
      apply first_where_from_raise in Hte. destruct Hte as [-> Hall].
      split; [reflexivity|]. right. now exists d, tN, te.
  - intros [-> [-> | [t0 [tN [te [H0 [HN [Hin Hall]]]]]]]]; [reflexivity|].
    rewrite H0, HN. cbn [bind].
    rewrite (mapM_raises _ _ IndexError); [reflexivity | |].
    + intros a _. apply first_where_from_cases.
    + exists te. split; [exact Hin | now apply first_where_from_none].
Qed.

(** X11.  The reducer raises exactly when there is no sample, or when some
    interior boundary of the hourly grid is not exceeded by any timestamp; the
    exception is always [IndexError]. *)
Theorem make_hourly_medians_raises_iff
  (datetimes : list Q) (data : ndarray) (e : exn) :
  make_hourly_medians gen_dt_arr datetimes data = Raise e
  <-> e = IndexError
      /\ (datetimes = []
          \/ exists t_first t_last te,
              first datetimes = Ok t_first /\ last datetimes = Ok t_last
              /\ In te (removelast (tl (gen_dt_arr t_first t_last (1 / 24))))
              /\ forall t, In t datetimes -> t <= te).
Proof. apply make_hourly_medians_raises_spec. Qed.

(** X12.  When the reducer returns, there is one bin centre per hourly grid
    point but the last, and one median per interior boundary plus one: the
    two arrays have the same length exactly when the grid has at least two
    points, and with a shorter grid there is one median and no centre. *)
Theorem make_hourly_medians_lengths
  (datetimes : list Q) (data : ndarray) (t_first t_last : Q)
  (centers : list Q) (medians : list value) :
  first datetimes = Ok t_first ->
  last datetimes = Ok t_last ->
  make_hourly_medians gen_dt_arr datetimes data = Ok (centers, medians) ->
  let n := length (gen_dt_arr t_first t_last (1 / 24)) in
  length centers = (n - 1)%nat
  /\ length medians = S (n - 2)
  /\ ((2 <= n)%nat <-> length centers = length medians).
Proof.
  intros H0 HN. unfold make_hourly_medians. rewrite H0, HN. cbn [bind].
  destruct (mapM _ _) as [argsplit|] eqn:EM; cbn [bind]; [|discriminate].
  intros H. injection H as <- <-.
  set (n := length (gen_dt_arr t_first t_last (1 / 24))).
  apply mapM_Forall2, Forall2_length in EM.
  rewrite !length_map, length_removelast. unfold split.
  rewrite length_split_from, <- EM, length_removelast.
  assert (Htl : length (tl (gen_dt_arr t_first t_last (1 / 24))) = (n - 1)%nat)
    by (unfold n; destruct (gen_dt_arr t_first t_last (1 / 24)); simpl; lia).
  rewrite Htl. fold n. lia.
Qed.

(** X13.  With the hourly boundaries in non-decreasing order, the partitions
    that are reduced are consecutive runs of the samples: joined in order
    they give back the samples, none lost and none repeated. *)
Theorem make_hourly_medians_partitions_cover
  (datetimes : list Q) (data : ndarray) (t_first t_last : Q)
  (centers : list Q) (medians : list value) :
  first datetimes = Ok t_first ->
  last datetimes = Ok t_last ->
  StronglySorted Qle (removelast (tl (gen_dt_arr t_first t_last (1 / 24)))) ->
  make_hourly_medians gen_dt_arr datetimes data = Ok (centers, medians) ->
  exists argsplit,
    Forall2 (first_exceeding datetimes)
            (removelast (tl (gen_dt_arr t_first t_last (1 / 24)))) argsplit
    /\ medians = map (fun slice_ => nanmedian (concat slice_))
                     (split (rows data) argsplit)
    /\ concat (split (rows data) argsplit) = rows data.
Proof.
  intros H0 HN Hsorted. unfold make_hourly_medians. rewrite H0, HN. cbn [bind].
  destruct (mapM _ _) as [argsplit|] eqn:EM; cbn [bind]; [|discriminate].
  intros H; injection H as <- <-.
  assert (HF : Forall2 (first_exceeding datetimes)
                       (removelast (tl (gen_dt_arr t_first t_last (1 / 24))))
                       argsplit).
  { apply mapM_Forall2 in EM. eapply Forall2_impl; [|exact EM].
    intros te i Hi. simpl in Hi. apply first_where_from in Hi.
    destruct Hi as [j [-> Hj]]. exact Hj. }
  exists argsplit. split; [exact HF | split; [reflexivity|]].
  unfold split. rewrite concat_split_from; [reflexivity|].
  constructor.
  - clear EM. induction HF as [|te i edges inds Hi HF IH]; [constructor|].
    apply StronglySorted_inv in Hsorted. destruct Hsorted as [Hs Hall].
    constructor; [now apply IH|].
    apply Forall_forall. intros j Hj.
    destruct (Forall2_In_r _ _ _ _ HF Hj) as [te' [Hte' Hfe]].
    rewrite Forall_forall in Hall.
    apply (first_exceeding_monotone datetimes te te'); auto.
  - apply Forall_forall. intros; lia.
Qed.

Lemma make_hourly_medians_range
  (datetimes : list Q) (data : ndarray) (lo hi : Q)
  (centers : list Q) (medians : list value) :
  (forall row u, In row (rows data) -> In (Fin u) row -> lo <= u <= hi) ->
  make_hourly_medians gen_dt_arr datetimes data = Ok (centers, medians) ->
  Forall (fun m => match m with NaN => True | Fin q => lo <= q <= hi end) medians.
Proof.
  intros Hall. unfold make_hourly_medians.
  destruct (first datetimes); [|discriminate]. cbn [bind].
  destruct (last datetimes); [|discriminate]. cbn [bind].
  destruct (mapM _ _) as [argsplit|]; cbn [bind]; [|discriminate].
  intros H; injection H as <- <-.
  apply Forall_forall. intros m Hm. apply in_map_iff in Hm.
  destruct Hm as [part [<- Hpart]].
  destruct (nanmedian (concat part)) as [|q] eqn:E; [exact I|].
  apply (nanmedian_range (concat part) lo hi q); [|exact E].
  intros u Hu. apply in_concat in Hu. destruct Hu as [row [Hrow Hin]].
  apply (Hall row u); [|exact Hin].
  unfold split in Hpart. now apply (split_from_incl _ _ _ _ row Hpart).
Qed.

(** X14.  No median leaves the range of the samples: when every sample value
    that is present lies between [lo] and [hi], every returned median is NaN
    or lies between [lo] and [hi]. *)
Theorem make_hourly_medians_within_samples
  (datetimes : list Q) (data : ndarray) (lo hi : Q)
  (centers : list Q) (medians : list value) :
  (forall row u, In row (rows data) -> In (Fin u) row -> lo <= u <= hi) ->
  make_hourly_medians gen_dt_arr datetimes data = Ok (centers, medians) ->
  Forall (fun m => match m with NaN => True | Fin q => lo <= q <= hi end) medians.
Proof. apply make_hourly_medians_range. Qed.

End ReducerFacts.

Lemma make_hourly_medians_lengths_witness :
  let n := length (Demo.gen_dt_arr 0 14400 (1 / 24)) in
  length [3600 # 2; 10800 # 2; 18000 # 2] = (n - 1)%nat
  /\ length [Fin 3; NaN; Fin 0] = S (n - 2)
  /\ ((2 <= n)%nat
      <-> length [3600 # 2; 10800 # 2; 18000 # 2] = length [Fin 3; NaN; Fin 0]).
Proof.
  apply (make_hourly_medians_lengths Demo.gen_dt_arr
           Demo.reducer_times Demo.reducer_values 0 14400).
  - reflexivity.
  - reflexivity.
  - vm_compute. reflexivity.
Defined.

Lemma make_hourly_medians_partitions_cover_witness :
  exists argsplit,
    Forall2 (first_exceeding Demo.reducer_times)
            (removelast (tl (Demo.gen_dt_arr 0 14400 (1 / 24)))) argsplit
    /\ [Fin 3; NaN; Fin 0]
       = map (fun slice_ => nanmedian (concat slice_))
             (split (rows Demo.reducer_values) argsplit)
    /\ concat (split (rows Demo.reducer_values) argsplit) = rows Demo.reducer_values.
Proof.
  apply (make_hourly_medians_partitions_cover Demo.gen_dt_arr
           Demo.reducer_times Demo.reducer_values 0 14400
           [3600 # 2; 10800 # 2; 18000 # 2]).
  - reflexivity.
  - reflexivity.
  - vm_compute. repeat constructor; intros H; discriminate H.
  - vm_compute. reflexivity.
Defined.

Lemma make_hourly_medians_within_samples_witness :
  Forall (fun m => match m with NaN => True | Fin q => -5 <= q <= 7 end)
         [Fin 3; NaN; Fin 0].
Proof.
  apply (make_hourly_medians_within_samples Demo.gen_dt_arr
           Demo.reducer_times Demo.reducer_values (-5) 7
           [3600 # 2; 10800 # 2; 18000 # 2]).
  - intros row u Hrow Hu. vm_compute in Hrow.
    repeat (destruct Hrow as [<-|Hrow];
            [destruct Hu as [Hu|[]]; try discriminate Hu; injection Hu as <-;
             split; intros H; discriminate H|]).
    destruct Hrow.
  - vm_compute. reflexivity.
Defined.

(** ** The series builders *)

Lemma sign_is_polarity (v : value) : is_polarity (sign v).
Proof.
  destruct v as [|a]; [now left|]. right. simpl. unfold qsign.
  destruct (a ?= 0); auto.
Qed.

Lemma interp1d_length (xs : list Q) (ys : list value) (fill_value : value)
  (x_new : list Q) (out : list value) :
  interp1d xs ys fill_value x_new = Ok out -> length out = length x_new.
Proof.
  unfold interp1d.
  destruct (negb (Nat.eqb (length xs) (length ys))); [discriminate|].
  destruct (sort_by_x (combine xs ys)); [discriminate|].
  intros H; injection H as <-. apply length_map.
Qed.

Lemma gen_dt_arr_unpacked_inv (gen_dt_arr : Q -> Q -> Q -> list Q)
  (interval : list Q) (c : Q) (grid : list Q) :
  gen_dt_arr_unpacked gen_dt_arr interval c = Ok grid ->
  exists t_start t_end,
    interval = [t_start; t_end] /\ grid = gen_dt_arr t_start t_end c.
Proof.
  destruct interval as [|a [|b [|d r]]]; try discriminate.
  intros H; injection H as <-. now exists a, b.
Qed.

Lemma gen_dt_arr_unpacked_degenerate (gen_dt_arr : Q -> Q -> Q -> list Q)
  (interval : list Q) (c : Q) :
  length interval <> 2%nat ->
  gen_dt_arr_unpacked gen_dt_arr interval c = Raise TypeError.
Proof.
  destruct interval as [|a [|b [|d r]]]; simpl; try reflexivity. congruence.
Qed.

Lemma column0_raises (a : ndarray) (e : exn) :
  column0 a = Raise e -> e = IndexError.
Proof.
  destruct a as [l|r]; simpl; [now intros H; injection H|].
  induction r as [|row r IH]; [discriminate|].
  destruct row as [|v row]; simpl; [now intros H; injection H|].
  match goal with
  | |- bind ?m _ = _ -> _ => destruct m; simpl; [discriminate|]
  end.
  intros H; injection H as <-. now apply IH.
Qed.

Section BuilderFacts.

Variable gen_dt_arr : Q -> Q -> Q -> list Q.
Variable SkyCoord : Type.
Variable create_carrington_trajectory : list Q -> string -> option Q -> SkyCoord.
Variable lon : SkyCoord -> list Q.
Variable download_br_data : list Q -> string -> list (string * tplot).
Variable download_vr_data : list Q -> string -> list (string * tplot).
Variable ballistically_project : SkyCoord -> Q -> option (list value) -> SkyCoord.
Variable NLMap : Type.
Variable sample_at_coords : NLMap -> SkyCoord -> list value.


(** What the observed-series builder has gone through when it returns. *)
Lemma create_polarity_obs_inv
  (center_date : Q) (body : string) (return_br : bool)
  (grid : list Q) (values : list value) :
  create_polarity_obs gen_dt_arr SkyCoord create_carrington_trajectory lon
    download_br_data center_date body return_br = Ok (grid, values) ->
  exists interval times_medians br_medians br_hourly,
    determine_carrington_interval gen_dt_arr SkyCoord create_carrington_trajectory
    lon center_date body = Ok interval
    /\ gen_dt_arr_unpacked gen_dt_arr interval (1 / 24) = Ok grid
    /\ interp1d times_medians br_medians NaN grid = Ok br_hourly
    /\ values = (if return_br then br_hourly else map sign br_hourly).
Proof.
  unfold create_polarity_obs.
  destruct (determine_carrington_interval gen_dt_arr SkyCoord create_carrington_trajectory
    lon center_date body) as [interval|]; [|discriminate].
  cbn [bind].
  match goal with
  | |- bind ?m _ = _ -> _ => destruct m as [[tm bm]|]; [|discriminate]
  end.
  cbn [bind].
  destruct (gen_dt_arr_unpacked gen_dt_arr interval (1 / 24)) as [g|] eqn:Eg;
    [|discriminate].
  cbn [bind]. unfold datetime2unix.
  destruct (interp1d tm bm NaN g) as [br|] eqn:Ei; [|discriminate].
  cbn [bind]. intros H. exists interval, tm, bm, br.
  destruct return_br; injection H as <- <-; auto.
Qed.

(** X15.  Whenever the observed-series builder returns, the resolver has
    returned exactly two timestamps, the returned grid is the hourly grid
    between them, and there is one value per grid timestamp. *)
Theorem create_polarity_obs_grid
  (center_date : Q) (body : string) (return_br : bool)
  (grid : list Q) (values : list value) :
  create_polarity_obs gen_dt_arr SkyCoord create_carrington_trajectory lon
    download_br_data center_date body return_br = Ok (grid, values) ->
  exists t_start t_end,
    determine_carrington_interval gen_dt_arr SkyCoord create_carrington_trajectory
    lon center_date body = Ok [t_start; t_end]
    /\ grid = gen_dt_arr t_start t_end (1 / 24)
    /\ length values = length grid.
Proof.
  intros H. apply create_polarity_obs_inv in H.
  destruct H as [interval [tm [bm [br [Hres [Hg [Hi ->]]]]]]].
  apply gen_dt_arr_unpacked_inv in Hg. destruct Hg as [a [b [-> ->]]].
  exists a, b. split; [exact Hres | split; [reflexivity|]].
  apply interp1d_length in Hi.
  destruct return_br; [exact Hi | now rewrite length_map].
Qed.

(** X16.  With [return_br] false every returned value is a polarity: NaN,
    -1, 0 or +1. *)
Theorem create_polarity_obs_polarity
  (center_date : Q) (body : string) (grid : list Q) (values : list value) :
  create_polarity_obs gen_dt_arr SkyCoord create_carrington_trajectory lon
    download_br_data center_date body false = Ok (grid, values) ->
  Forall is_polarity values.
Proof.
  intros H. apply create_polarity_obs_inv in H.
  destruct H as [_ [_ [_ [br [_ [_ [_ ->]]]]]]].
  apply Forall_forall. intros v Hv. apply in_map_iff in Hv.
  destruct Hv as [u [<- _]]. apply sign_is_polarity.
Qed.

(** X17.  The field series ([return_br] true) and the polarity series
    ([return_br] false) are on the same grid, the polarity is the sign of the
    field, and scoring any model series against the one or the other gives
    the same result. *)
Theorem create_polarity_obs_field_or_polarity
  (center_date : Q) (body : string) (grid : list Q) (br_hourly : list value) :
  create_polarity_obs gen_dt_arr SkyCoord create_carrington_trajectory lon
    download_br_data center_date body true = Ok (grid, br_hourly) ->
  create_polarity_obs gen_dt_arr SkyCoord create_carrington_trajectory lon
    download_br_data center_date body false = Ok (grid, map sign br_hourly)
  /\ forall model_tseries,
      compute_NL_metric model_tseries (grid, map sign br_hourly)
      = compute_NL_metric model_tseries (grid, br_hourly).
Proof.
  intros H. split.
  - revert H. unfold create_polarity_obs.
    destruct (determine_carrington_interval gen_dt_arr SkyCoord create_carrington_trajectory
    lon center_date body) as [interval|]; [|discriminate].
    cbn [bind].
    match goal with
    | |- bind ?m _ = _ -> _ => destruct m as [[tm bm]|]; [|discriminate]
    end.
    cbn [bind].
    destruct (gen_dt_arr_unpacked gen_dt_arr interval (1 / 24)) as [g|];
      [|discriminate].
    cbn [bind].
    destruct (interp1d _ bm NaN _) as [br|]; [|discriminate].
    cbn [bind]. intros H. now injection H as <- <-.
  - intros model_tseries. unfold compute_NL_metric, aligned_obs_pol. cbn [fst snd].
    rewrite map_map.
    now rewrite (map_ext (fun v => sign (sign v)) sign sign_idempotent br_hourly).
Qed.

(** X18.  An empty download, or for a body other than L1 a one-dimensional
    sample array, makes the observed-series builder raise [IndexError]. *)
Theorem create_polarity_obs_bad_download
  (center_date : Q) (body : string) (return_br : bool) (interval : list Q) :
  determine_carrington_interval gen_dt_arr SkyCoord create_carrington_trajectory
    lon center_date body = Ok interval ->
  download_br_data interval body = []
  \/ (String.eqb body "L1" = false
      /\ exists v a, first_variable (download_br_data interval body) = Ok v
                     /\ y v = Arr1 a) ->
  create_polarity_obs gen_dt_arr SkyCoord create_carrington_trajectory lon
    download_br_data center_date body return_br = Raise IndexError.
Proof.
  intros Hres Hbad. unfold create_polarity_obs. rewrite Hres. cbn [bind].
  destruct Hbad as [E | [Eb [v [a [Hv Hy]]]]].
  - rewrite E. now destruct (String.eqb body "L1").
  - rewrite Eb, Hv. cbn [bind]. now rewrite Hy.
Qed.

(** X19.  When the resolver returns anything but two timestamps, the
    predicted-series builder raises [TypeError] and the observed-series
    builder returns nothing either: it raises [IndexError] or [TypeError]. *)
Theorem builders_reject_degenerate_interval
  (model_NL_map : NLMap) (center_date : Q) (body : string)
  (constant_vr return_vr return_br : bool) (altitude : Q) (interval : list Q) :
  determine_carrington_interval gen_dt_arr SkyCoord create_carrington_trajectory
    lon center_date body = Ok interval ->
  length interval <> 2%nat ->
  create_polarity_model gen_dt_arr SkyCoord create_carrington_trajectory lon
    download_vr_data ballistically_project NLMap sample_at_coords model_NL_map center_date body constant_vr altitude return_vr
  = Raise TypeError
  /\ (create_polarity_obs gen_dt_arr SkyCoord create_carrington_trajectory lon
    download_br_data center_date body return_br = Raise IndexError
      \/ create_polarity_obs gen_dt_arr SkyCoord create_carrington_trajectory lon
    download_br_data center_date body return_br = Raise TypeError).
Proof.
  intros Hres Hlen. split.
  - unfold create_polarity_model. rewrite Hres. cbn [bind].
    now rewrite gen_dt_arr_unpacked_degenerate.
  - unfold create_polarity_obs. rewrite Hres. cbn [bind].
    match goal with
    | |- bind ?m _ = _ \/ _ => destruct m as [[tm bm]|e] eqn:Em
    end.
    + cbn [bind]. rewrite gen_dt_arr_unpacked_degenerate by exact Hlen. now right.
    + cbn [bind]. left. f_equal.
      destruct (String.eqb body "L1").
      * destruct (first_variable _) as [v|e1] eqn:E1; cbn [bind] in Em.
        -- destruct (make_hourly_medians gen_dt_arr (x v) (y v)) as [[a b]|e2] eqn:E2;
             cbn [bind] in Em; [discriminate|].
           injection Em as <-.
           apply (proj1 (make_hourly_medians_raises_spec _ _ _ _)) in E2. tauto.
        -- injection Em as <-. unfold first_variable in E1.
           destruct (download_br_data interval body); [now injection E1 | discriminate].
      * destruct (first_variable _) as [v|e1] eqn:E1; cbn [bind] in Em.
        -- destruct (column0 (y v)) as [y0|e3] eqn:E3; cbn [bind] in Em.
           ++ apply (proj1 (make_hourly_medians_raises_spec _ _ _ _)) in Em. tauto.
           ++ injection Em as <-. now apply column0_raises in E3.
        -- injection Em as <-. unfold first_variable in E1.
           destruct (download_br_data interval body); [now injection E1 | discriminate].
Qed.

(** X20.  For the same reference time and body the two builders return the
    same grid, so that scoring their series compares them index by index:
    the observed polarity is not resampled. *)
Theorem builders_share_grid
  (model_NL_map : NLMap) (center_date : Q) (body : string)
  (constant_vr return_vr return_br : bool) (altitude : Q)
  (out : model_output) (grid : list Q) (values : list value) :
  create_polarity_model gen_dt_arr SkyCoord create_carrington_trajectory lon
    download_vr_data ballistically_project NLMap sample_at_coords model_NL_map center_date body constant_vr altitude return_vr = Ok out ->
  create_polarity_obs gen_dt_arr SkyCoord create_carrington_trajectory lon
    download_br_data center_date body return_br = Ok (grid, values) ->
  fst (output_series out) = grid
  /\ (grid <> [] ->
      aligned_obs_pol (output_series out) (grid, values) = Ok (map sign values)).
Proof.
  intros Hm Ho. apply create_polarity_obs_inv in Ho.
  destruct Ho as [interval [_ [_ [_ [Hres [Hg _]]]]]].
  assert (E : fst (output_series out) = grid).
  { revert Hm. unfold create_polarity_model. rewrite Hres. cbn [bind].
    rewrite Hg. cbn [bind].
    match goal with
    | |- bind ?m _ = _ -> _ => destruct m; [|discriminate]
    end.
    cbn [bind]. destruct return_vr; intros H; injection H as <-; reflexivity. }
  split; [exact E|].
  intros Hne. unfold aligned_obs_pol, datetime2unix. rewrite E. cbn [fst snd].
  now rewrite (needs_resampling_same grid Hne).
Qed.

End BuilderFacts.

(** ** Interpolated values stay within the data *)

Lemma insert_by_x_sorted (p : Q * value) (l : list (Q * value)) :
  StronglySorted le_x l -> StronglySorted le_x (insert_by_x p l).
Proof.
  induction 1 as [|h t Hs IH Hall]; simpl.
  - constructor; constructor.
  - destruct (Qltb (fst h) (fst p)) eqn:E.
    + apply Qltb_lt in E. constructor; [exact IH|].
      apply Forall_forall. intros q Hq. apply insert_by_x_In in Hq.
      destruct Hq as [->|Hq].
      * unfold le_x. lra.
      * rewrite Forall_forall in Hall. now apply Hall.
    + apply Qltb_ge in E. constructor; [now constructor|].
      constructor; [exact E|].
      eapply Forall_impl; [|exact Hall]. unfold le_x. intros q Hq. lra.
Qed.

Lemma sort_by_x_sorted (l : list (Q * value)) : StronglySorted le_x (sort_by_x l).
Proof.
  induction l as [|p l IH]; simpl; [constructor | now apply insert_by_x_sorted].
Qed.

Lemma lerp_range (x0 a x1 b t lo hi : Q) :
  x0 <= t -> t < x1 -> lo <= a <= hi -> lo <= b <= hi ->
  lo <= (b - a) / (x1 - x0) * (t - x0) + a <= hi.
Proof.
  intros H0 H1 Ha Hb.
  set (th := (t - x0) / (x1 - x0)).
  assert (Hpos : 0 < x1 - x0) by lra.
  assert (T0 : 0 <= th).
  { apply Qle_shift_div_l; [exact Hpos | lra]. }
  assert (T1 : th <= 1).
  { apply Qle_shift_div_r; [exact Hpos | lra]. }
  assert (E : (b - a) / (x1 - x0) * (t - x0) + a == (1 - th) * a + th * b).
  { unfold th. field. lra. }
  rewrite E.
  assert (P1 : 0 <= (1 - th) * (a - lo)) by (apply Qmult_le_0_compat; lra).
  assert (P2 : 0 <= th * (b - lo)) by (apply Qmult_le_0_compat; lra).
  assert (P3 : 0 <= (1 - th) * (hi - a)) by (apply Qmult_le_0_compat; lra).
  assert (P4 : 0 <= th * (hi - b)) by (apply Qmult_le_0_compat; lra).
  split.
  - assert (F : (1 - th) * a + th * b - lo == (1 - th) * (a - lo) + th * (b - lo))
      by ring.
    lra.
  - assert (F : hi - ((1 - th) * a + th * b) == (1 - th) * (hi - a) + th * (hi - b))
      by ring.
    lra.
Qed.

Lemma interp_range (pts : list (Q * value)) (t lo hi v : Q) :
  StronglySorted le_x pts ->
  (forall u y, In (u, Fin y) pts -> lo <= y <= hi) ->
  (forall p, hd_error pts = Some p -> fst p <= t) ->
  interp pts t = Fin v -> lo <= v <= hi.
Proof.
  intros Hs. induction Hs as [|[x0 y0] pts Hs IH Hall]; intros Hy Hhd; [discriminate|].
  destruct pts as [|[x1 y1] rest].
  - simpl. intros ->. apply (Hy x0). now left.
  - rewrite interp_cons2. destruct (Qle_bool x1 t) eqn:E1.
    + apply IH.
      * intros u y Hin. apply (Hy u). now right.
      * intros p Hp. injection Hp as <-. now apply Qle_bool_iff.
    + destruct (Qeq_bool x0 t); [intros ->; apply (Hy x0); now left|].
      assert (H0 : x0 <= t) by (apply (Hhd (x0, y0)); reflexivity).
      assert (H1 : t < x1).
      { apply Qnot_le_lt. intros Hle. apply Qle_bool_iff in Hle. congruence. }
      destruct y0 as [|a], y1 as [|b]; try discriminate.
      simpl. intros H; injection H as <-.
      apply lerp_range; auto.
      * apply (Hy x0). now left.
      * apply (Hy x1). right. now left.
Qed.

Lemma interp1d_range (xs : list Q) (ys : list value) (fill_value : value)
  (x_new : list Q) (out : list value) (lo hi : Q) :
  (forall y, In (Fin y) ys -> lo <= y <= hi) ->
  interp1d xs ys fill_value x_new = Ok out ->
  Forall (fun s => s = fill_value
                   \/ match s with NaN => True | Fin v => lo <= v <= hi end) out.
Proof.
  intros Hy. unfold interp1d.
  destruct (negb (Nat.eqb (length xs) (length ys))); [discriminate|].
  pose proof (sort_by_x_sorted (combine xs ys)) as Hs.
  destruct (sort_by_x (combine xs ys)) as [|p0 rest] eqn:Hsort; [discriminate|].
  intros H; injection H as <-.
  apply Forall_forall. intros s Hin. apply in_map_iff in Hin.
  destruct Hin as [t [<- _]]. unfold evaluate.
  destruct (Qltb t (fst p0)) eqn:E1; [now left|].
  destruct (Qltb (fst (List.last (p0 :: rest) p0)) t); [now left|].
  right. cbn [orb]. destruct (interp (p0 :: rest) t) as [|v] eqn:Ei; [exact I|].
  apply (interp_range (p0 :: rest) t lo hi v Hs); [| |exact Ei].
  - intros u y Hp. apply Hy. rewrite <- Hsort in Hp.
    apply (proj1 (sort_by_x_In _ _)) in Hp. now apply in_combine_r in Hp.
  - intros p Hp. injection Hp as <-. now apply Qltb_ge.
Qed.

Lemma take_In {A : Type} (a : list A) (inds : list nat) (l : list A) (u : A) :
  take a inds = Ok l -> In u l -> In u a.
Proof.
  intros Ht Hu. apply take_Forall2 in Ht.
  destruct (Forall2_In_r _ _ _ _ Ht Hu) as [k [_ Hk]]. now apply nth_error_In in Hk.
Qed.

Lemma vr_on_grid_range
  (times_medians : list Q) (vr_medians : list value) (datetimes_hourly : list Q)
  (vr_arr : list value) (lo hi : Q) :
  (forall v, In (Fin v) vr_medians -> lo <= v <= hi) ->
  vr_on_grid times_medians vr_medians datetimes_hourly = Ok vr_arr ->
  Forall (fun s => exists v, s = Fin v /\ (v = 360 \/ lo <= v <= hi)) vr_arr.
Proof.
  intros Hv Hvr.
  destruct (vr_on_grid_spec _ _ _ _ Hvr) as [_ [Hfin _]].
  revert Hvr. unfold vr_on_grid, datetime2unix.
  destruct (take vr_medians _) as [vr'|] eqn:Evr; [|discriminate]. cbn [bind].
  destruct (take times_medians _) as [tm'|]; [|discriminate]. cbn [bind].
  intros Hi.
  apply (interp1d_range _ _ _ _ _ lo hi) in Hi.
  - rewrite Forall_forall in *. intros s Hs.
    specialize (Hfin s Hs). destruct (Hi s Hs) as [-> | H].
    + exists 360. split; [reflexivity | now left].
    + destruct s as [|v]; [discriminate Hfin|]. exists v. split; [reflexivity | now right].
  - intros y Hy. apply Hv. now apply (take_In _ _ _ _ Evr).
Qed.

(** X21.  The radial speed on every grid timestamp is the default 360 or
    lies within the range of the valid hourly medians: interpolation never
    overshoots the data. *)
Theorem vr_on_grid_within_medians
  (times_medians : list Q) (vr_medians : list value) (datetimes_hourly : list Q)
  (vr_arr : list value) (lo hi : Q) :
  (forall v, In (Fin v) vr_medians -> lo <= v <= hi) ->
  vr_on_grid times_medians vr_medians datetimes_hourly = Ok vr_arr ->
  Forall (fun s => exists v, s = Fin v /\ (v = 360 \/ lo <= v <= hi)) vr_arr.
Proof. apply vr_on_grid_range. Qed.

Lemma vr_on_grid_within_medians_witness :
  Forall (fun s => exists v, s = Fin v /\ (v = 360 \/ 400 <= v <= 500))
         (Demo.get [] (vr_on_grid [1800; 5400; 9000; 12600]
                                  [NaN; Fin 400; Fin 500; NaN]
                                  [0; 3600; 7200; 10800; 14400])).
Proof.
  apply (vr_on_grid_within_medians
           [1800; 5400; 9000; 12600] [NaN; Fin 400; Fin 500; NaN]
           [0; 3600; 7200; 10800; 14400] _ 400 500).
  - intros v [H|[H|[H|[H|[]]]]]; try discriminate H; injection H as <-;
      split; intros H; discriminate H.
  - vm_compute. reflexivity.
Defined.

Lemma column0_In (a : ndarray) (y0 : list value) (u : value) :
  column0 a = Ok y0 -> In u y0 -> exists row, In row (rows a) /\ In u row.
Proof.
  destruct a as [l|r]; simpl; [discriminate|].
  revert y0. induction r as [|row r IH]; intros y0.
  - intros H; injection H as <-. intros [].
  - destruct row as [|v row]; simpl; [discriminate|].
    match goal with
    | |- bind ?m _ = _ -> _ => destruct m as [vs|] eqn:E; simpl; [|discriminate]
    end.
    intros H; injection H as <-. intros [<-|Hu].
    + exists (v :: row). split; now left.
    + destruct (IH vs eq_refl Hu) as [row' [Hr Hin]].
      exists row'. split; [now right | exact Hin].
Qed.

Section FieldRange.

Variable gen_dt_arr : Q -> Q -> Q -> list Q.
Variable SkyCoord : Type.
Variable create_carrington_trajectory : list Q -> string -> option Q -> SkyCoord.
Variable lon : SkyCoord -> list Q.
Variable download_br_data : list Q -> string -> list (string * tplot).

(** X22.  The hourly field of the observed-series builder never exceeds the
    samples in magnitude: when every downloaded value that is present lies
    between [-B] and [B], every returned field value is NaN or lies between
    [-B] and [B] (for L1 too, where the medians are negated). *)
Theorem create_polarity_obs_within_samples
  (center_date : Q) (body : string) (interval : list Q) (v : tplot)
  (grid : list Q) (br_hourly : list value) (B : Q) :
  determine_carrington_interval gen_dt_arr SkyCoord create_carrington_trajectory
                                lon center_date body = Ok interval ->
  first_variable (download_br_data interval body) = Ok v ->
  (forall row u, In row (rows (y v)) -> In (Fin u) row -> - B <= u <= B) ->
  create_polarity_obs gen_dt_arr SkyCoord create_carrington_trajectory lon
                      download_br_data center_date body true
  = Ok (grid, br_hourly) ->
  Forall (fun s => match s with NaN => True | Fin q => - B <= q <= B end) br_hourly.
Proof.
  intros Hres Hv Hb. unfold create_polarity_obs. rewrite Hres. cbn [bind].
  rewrite Hv. cbn [bind].
  assert (Hfinish : forall tm bm,
             (forall q, In (Fin q) bm -> - B <= q <= B) ->
             (g <- gen_dt_arr_unpacked gen_dt_arr interval (1 / 24) ;;
              br <- interp1d (datetime2unix tm) bm NaN (datetime2unix g) ;;
              Ok (g, br)) = Ok (grid, br_hourly) ->
             Forall (fun s => match s with NaN => True | Fin q => - B <= q <= B end)
                    br_hourly).
  { intros tm bm Hbm.
    destruct (gen_dt_arr_unpacked gen_dt_arr interval (1 / 24)) as [g|];
      [|discriminate].
    cbn [bind]. destruct (interp1d _ bm NaN _) as [br|] eqn:Ei; [|discriminate].
    cbn [bind]. intros H; injection H as <- <-.
    apply (interp1d_range _ _ _ _ _ (- B) B Hbm) in Ei.
    eapply Forall_impl; [|exact Ei]. intros s [->|Hs]; [exact I | exact Hs]. }
  destruct (String.eqb body "L1").
  - destruct (make_hourly_medians gen_dt_arr (x v) (y v)) as [[tm bm]|] eqn:Em;
      [|discriminate].
    cbn [bind]. apply Hfinish.
    pose proof (make_hourly_medians_range gen_dt_arr _ _ (- B) B _ _ Hb Em) as Hr.
    intros q Hq. apply in_map_iff in Hq. destruct Hq as [m [Hm Hin]].
    rewrite Forall_forall in Hr. specialize (Hr m Hin).
    destruct m as [|p]; [discriminate Hm|]. simpl in Hm. injection Hm as <-. lra.
  - destruct (column0 (y v)) as [y0|] eqn:Ec; [|discriminate]. cbn [bind].
    destruct (make_hourly_medians gen_dt_arr (x v) (Arr1 y0)) as [[tm bm]|] eqn:Em;
      [|discriminate].
    cbn [bind]. apply Hfinish.
    assert (Hb' : forall row u, In row (rows (Arr1 y0)) -> In (Fin u) row ->
                                - B <= u <= B).
    { intros row u Hrow Hu. simpl in Hrow. apply in_map_iff in Hrow.
      destruct Hrow as [w [<- Hw]]. destruct Hu as [->|[]].
      destruct (column0_In _ _ _ Ec Hw) as [row' [Hr' Hin']]. now apply (Hb row'). }
    pose proof (make_hourly_medians_range gen_dt_arr _ _ (- B) B _ _ Hb' Em) as Hr.
    intros q Hq. rewrite Forall_forall in Hr. now apply (Hr (Fin q)).
Qed.

End FieldRange.

Lemma bounded_rows (B : Q) (a : ndarray) :
  bounded B a = true ->
  forall row u, In row (rows a) -> In (Fin u) row -> - B <= u <= B.
Proof.
  unfold bounded. intros H row u Hrow Hu.
  rewrite forallb_forall in H. specialize (H row Hrow).
  rewrite forallb_forall in H. specialize (H (Fin u) Hu). simpl in H.
  apply andb_true_iff in H. destruct H as [H1 H2].
  split; now apply Qle_bool_iff.
Qed.

(** ** The builders on the demonstration collaborators *)

Lemma create_polarity_obs_grid_witness :
  exists t_start t_end,
    determine_carrington_interval Demo.gen_dt_arr (list Q) Demo.earth Demo.lon
                                  0 "L1" = Ok [t_start; t_end]
    /\ fst (Demo.get ([], []) (Demo.obs_builder 0 "L1"%string true))
       = Demo.gen_dt_arr t_start t_end (1 / 24)
    /\ length (snd (Demo.get ([], []) (Demo.obs_builder 0 "L1"%string true)))
       = length (fst (Demo.get ([], []) (Demo.obs_builder 0 "L1"%string true))).
Proof.
  apply (create_polarity_obs_grid Demo.gen_dt_arr (list Q) Demo.earth Demo.lon
           Demo.sparse_download 0 "L1"%string true).
  vm_compute. reflexivity.
Defined.

Lemma create_polarity_obs_polarity_witness :
  Forall is_polarity
         (snd (Demo.get ([], []) (Demo.short_obs_builder 0 "psp"%string false))).
Proof.
  apply (create_polarity_obs_polarity Demo.gen_dt_arr (list Q) Demo.earth Demo.lon
           Demo.short_download 0 "psp"%string
           (fst (Demo.get ([], []) (Demo.short_obs_builder 0 "psp"%string false)))).
  vm_compute. reflexivity.
Defined.

(** The polarities of that run: NaN outside the hundred hours that were
    sampled, and inside them every one of -1, 0 and +1. *)
Example create_polarity_obs_polarity_run :
  let values := snd (Demo.get ([], []) (Demo.short_obs_builder 0 "psp"%string false)) in
  map (fun v => length (filter (Demo.same v) values)) [Fin (-1 # 1); Fin 0; Fin 1; NaN]
  = [43; 11; 44; 556]%nat.
Proof. vm_compute. reflexivity. Qed.

Lemma create_polarity_obs_field_or_polarity_witness :
  let s := Demo.get ([], []) (Demo.short_obs_builder 0 "L1"%string true) in
  Demo.short_obs_builder 0 "L1"%string false = Ok (fst s, map sign (snd s))
  /\ forall model_tseries,
      compute_NL_metric model_tseries (fst s, map sign (snd s))
      = compute_NL_metric model_tseries (fst s, snd s).
Proof.
  intros s.
  apply (create_polarity_obs_field_or_polarity Demo.gen_dt_arr (list Q) Demo.earth
           Demo.lon Demo.short_download 0 "L1"%string (fst s) (snd s)).
  vm_compute. reflexivity.
Defined.

(** The field of that run is numeric on 98 grid points, and differs from its
    sign on the 87 of them where it is not zero. *)
Example create_polarity_obs_field_run :
  let s := Demo.get ([], []) (Demo.short_obs_builder 0 "L1"%string true) in
  length (filter (fun v => negb (isnan v)) (snd s)) = 98%nat
  /\ length (filter (fun v => negb (Demo.same v (sign v))) (snd s)) = 87%nat.
Proof. split; vm_compute; reflexivity. Qed.

Lemma create_polarity_obs_bad_download_witness :
  create_polarity_obs Demo.gen_dt_arr (list Q) Demo.earth Demo.lon Demo.no_download
                      0 "L1" false = Raise IndexError.
Proof.
  apply (create_polarity_obs_bad_download Demo.gen_dt_arr (list Q) Demo.earth
           Demo.lon Demo.no_download 0 "L1"%string false [-1166400; 1188000]).
  - vm_compute. reflexivity.
  - left. reflexivity.
Defined.

Lemma builders_reject_degenerate_interval_witness :
  create_polarity_model Demo.gen_dt_arr (list Q) (Demo.trajectory 100 2) Demo.lon
    Demo.download_vr_data Demo.ballistically_project unit Demo.sample_at_coords
    tt 0 "slow" true (5 # 2) false = Raise TypeError
  /\ (create_polarity_obs Demo.gen_dt_arr (list Q) (Demo.trajectory 100 2) Demo.lon
        Demo.sparse_download 0 "slow" false = Raise IndexError
      \/ create_polarity_obs Demo.gen_dt_arr (list Q) (Demo.trajectory 100 2)
           Demo.lon Demo.sparse_download 0 "slow" false = Raise TypeError).
Proof.
  apply (builders_reject_degenerate_interval Demo.gen_dt_arr (list Q)
           (Demo.trajectory 100 2) Demo.lon Demo.sparse_download
           Demo.download_vr_data Demo.ballistically_project unit
           Demo.sample_at_coords tt 0 "slow"%string true false false (5 # 2) []).
  - vm_compute. reflexivity.
  - discriminate.
Defined.

Lemma builders_share_grid_witness :
  let out := Demo.get (Series ([], []))
                      (Demo.model_builder tt 0 "L1"%string true (5 # 2) false) in
  let obs := Demo.get ([], []) (Demo.obs_builder 0 "L1"%string false) in
  fst (output_series out) = fst obs
  /\ (fst obs <> [] ->
      aligned_obs_pol (output_series out) (fst obs, snd obs) = Ok (map sign (snd obs))).
Proof.
  intros out obs.
  apply (builders_share_grid Demo.gen_dt_arr (list Q) Demo.earth Demo.lon
           Demo.sparse_download Demo.download_vr_data Demo.ballistically_project
           unit Demo.sample_at_coords tt 0 "L1"%string true false false (5 # 2)
           out (fst obs) (snd obs)).
  - vm_compute. reflexivity.
  - vm_compute. reflexivity.
Defined.

Lemma create_polarity_obs_within_samples_witness :
  Forall (fun s => match s with NaN => True | Fin q => - (4) <= q <= 4 end)
         (snd (Demo.get ([], []) (Demo.short_obs_builder 0 "L1"%string true))).
Proof.
  apply (create_polarity_obs_within_samples Demo.gen_dt_arr (list Q) Demo.earth
           Demo.lon Demo.short_download 0 "L1"%string [-1166400; 1188000]
           (Demo.get {| x := []; y := Arr1 [] |}
              (first_variable (Demo.short_download [-1166400; 1188000] "L1")))
           (fst (Demo.get ([], []) (Demo.short_obs_builder 0 "L1"%string true)))
           _ 4).
  - vm_compute. reflexivity.
  - reflexivity.
  - apply bounded_rows. vm_compute. reflexivity.
  - vm_compute. reflexivity.
Defined.

(** The field of that run is numeric on 98 grid points and comes within a
    half of both bounds: midway between medians from -4 to 4 it spans -7/2 to
    7/2. *)
Example create_polarity_obs_within_samples_run :
  let br := snd (Demo.get ([], []) (Demo.short_obs_builder 0 "L1"%string true)) in
  length (filter (fun v => negb (isnan v)) br) = 98%nat
  /\ existsb (fun v => Demo.same v (Fin (7 # 2))) br = true
  /\ existsb (fun v => Demo.same v (Fin (-7 # 2))) br = true.
Proof. repeat split; vm_compute; reflexivity. Qed.

(** ** Shapes, spacing of the crossings, and the median *)

(** X23.  On a common grid, value arrays of different lengths, neither of
    length one, make the scorer raise [ValueError] (the product cannot be
    broadcast). *)
Theorem compute_NL_metric_shape_mismatch
  (model_tseries obs_tseries : list Q * list value) :
  needs_resampling (fst model_tseries) (fst obs_tseries) = Ok false ->
  length (snd obs_tseries) <> length (snd model_tseries) ->
  length (snd obs_tseries) <> 1%nat ->
  length (snd model_tseries) <> 1%nat ->
  compute_NL_metric model_tseries obs_tseries = Raise ValueError.
Proof.
  destruct model_tseries as [mt mv], obs_tseries as [ot ov]. cbn [fst snd].
  intros Hc Hne Ho Hm.
  unfold compute_NL_metric, aligned_obs_pol, datetime2unix. cbn [fst snd].
  rewrite Hc. cbn [bind]. unfold multiply, broadcast. rewrite !length_map.
  apply Nat.eqb_neq in Hne. rewrite Hne.
  destruct ov as [|o [|o' ov]], mv as [|m [|m' mv]]; simpl in *;
    try congruence; reflexivity.
Qed.

Lemma compute_NL_metric_shape_mismatch_witness :
  compute_NL_metric ([0; 3600; 7200], [Fin 1; Fin 1; Fin 1])
                    ([0; 3600; 7200], [Fin 1; Fin 1]) = Raise ValueError.
Proof.
  apply (compute_NL_metric_shape_mismatch
           ([0; 3600; 7200], [Fin 1; Fin 1; Fin 1]) ([0; 3600; 7200], [Fin 1; Fin 1]));
    simpl; try reflexivity; discriminate.
Defined.

(** X24.  Two consecutive samples of the window are never both flagged:
    between two crossings there is at least one sample that is not one. *)
Theorem carr_inds_not_adjacent (delta : list Q) (k : nat) :
  In k (carr_inds (map (fun d => fmod d 360) delta)) ->
  ~ In (S k) (carr_inds (map (fun d => fmod d 360) delta)).
Proof.
  intros Hk Hk'. apply carr_inds_In in Hk, Hk'.
  destruct Hk as [i [a [b [-> [Ha [Hb Hj]]]]]].
  destruct Hk' as [i' [a' [b' [E [Ha' [Hb' Hj']]]]]].
  injection E as <-. rewrite Hb in Ha'. injection Ha' as <-.
  rewrite nth_error_map in Ha, Hb, Hb'.
  destruct (nth_error delta i) as [u|]; [|discriminate].
  destruct (nth_error delta (S i)) as [v|]; [|discriminate].
  destruct (nth_error delta (S (S i))) as [w|]; [|discriminate].
  injection Ha as <-. injection Hb as <-. injection Hb' as <-.
  pose proof (fmod_360_range u). pose proof (fmod_360_range v).
  pose proof (fmod_360_range w). lra.
Qed.

Lemma carr_inds_not_adjacent_witness :
  ~ In 2%nat (carr_inds (map (fun d => fmod d 360) [5; -5; -20])).
Proof.
  apply (carr_inds_not_adjacent [5; -5; -20] 1).
  vm_compute. left. reflexivity.
Defined.

Lemma insert_sorted_sorted (q : Q) (l : list Q) :
  StronglySorted Qle l -> StronglySorted Qle (insert_sorted q l).
Proof.
  induction 1 as [|h t Hs IH Hall]; simpl.
  - constructor; constructor.
  - destruct (Qle_bool q h) eqn:E.
    + apply Qle_bool_iff in E. constructor; [now constructor|].
      constructor; [exact E|].
      eapply Forall_impl; [|exact Hall]. simpl. intros u Hu. lra.
    + assert (Hlt : h <= q).
      { apply Qlt_le_weak, Qnot_le_lt. intros Hle. apply Qle_bool_iff in Hle.
        congruence. }
      constructor; [exact IH|].
      apply Forall_forall. intros u Hu. apply insert_sorted_In in Hu.
      destruct Hu as [->|Hu]; [exact Hlt|].
      rewrite Forall_forall in Hall. now apply Hall.
Qed.

Lemma sort_sorted (l : list Q) : StronglySorted Qle (sort l).
Proof.
  induction l as [|q l IH]; simpl; [constructor | now apply insert_sorted_sorted].
Qed.

Lemma count_insert_sorted (f : Q -> bool) (q : Q) (l : list Q) :
  length (filter f (insert_sorted q l)) = length (filter f (q :: l)).
Proof.
  induction l as [|h t IH]; [reflexivity|].
  simpl insert_sorted. destruct (Qle_bool q h); [reflexivity|].
  simpl in *. destruct (f h), (f q); simpl in *; lia.
Qed.

Lemma count_sort (f : Q -> bool) (l : list Q) :
  length (filter f (sort l)) = length (filter f l).
Proof.
  induction l as [|q l IH]; [reflexivity|].
  simpl sort. rewrite count_insert_sorted. simpl. destruct (f q); simpl; lia.
Qed.

Lemma length_insert_sorted (q : Q) (l : list Q) :
  length (insert_sorted q l) = S (length l).
Proof.
  induction l as [|h t IH]; simpl; [reflexivity|].
  destruct (Qle_bool q h); simpl; now rewrite ?IH.
Qed.

Lemma length_sort (l : list Q) : length (sort l) = length l.
Proof.
  induction l as [|q l IH]; simpl; [reflexivity|].
  now rewrite length_insert_sorted, IH.
Qed.

Lemma sorted_nth_le (s : list Q) (i j : nat) :
  StronglySorted Qle s -> (i <= j)%nat -> (j < length s)%nat ->
  nth i s 0 <= nth j s 0.
Proof.
  intros Hs. revert i j. induction Hs as [|h t Hs IH Hall]; intros i j Hij Hj.
  - simpl in Hj. lia.
  - destruct j as [|j].
    + assert (i = 0)%nat by lia. subst. apply Qle_refl.
    + simpl in Hj. destruct i as [|i]; simpl.
      * rewrite Forall_forall in Hall. apply Hall, nth_In. lia.
      * apply IH; lia.
Qed.

Lemma count_firstn (f : Q -> bool) (s : list Q) (k : nat) :
  (k <= length s)%nat -> Forall (fun u => f u = true) (firstn k s) ->
  (k <= length (filter f s))%nat.
Proof.
  revert k. induction s as [|h t IH]; intros k Hk Hall.
  - simpl in Hk. lia.
  - destruct k as [|k]; [lia|]. simpl in Hk, Hall |- *.
    inversion Hall as [|? ? Hh Ht]; subst. rewrite Hh. simpl.
    apply le_n_S, IH; [lia | exact Ht].
Qed.

Lemma count_skipn (f : Q -> bool) (s : list Q) (k : nat) :
  Forall (fun u => f u = true) (skipn k s) ->
  (length s - k <= length (filter f s))%nat.
Proof.
  revert k. induction s as [|h t IH]; intros k Hall; [simpl; lia|].
  destruct k as [|k].
  - simpl in Hall. rewrite Nat.sub_0_r.
    clear IH. induction Hall as [|u l Hu _ IH]; [reflexivity|].
    simpl. rewrite Hu. simpl. lia.
  - simpl in Hall. specialize (IH k Hall). simpl. destruct (f h); simpl; lia.
Qed.

Lemma sorted_firstn_le (s : list Q) (k : nat) (m : Q) :
  StronglySorted Qle s -> (k < length s)%nat -> nth k s 0 <= m ->
  Forall (fun u => Qle_bool u m = true) (firstn (S k) s).
Proof.
  intros Hs Hk Hm. apply Forall_forall. intros u Hu.
  apply (In_nth _ _ 0) in Hu. destruct Hu as [i [Hi <-]].
  rewrite length_firstn in Hi. rewrite nth_firstn.
  assert (Hik : (i <? S k)%nat = true) by (apply Nat.ltb_lt; lia).
  rewrite Hik. apply Qle_bool_iff.
  apply Qle_trans with (nth k s 0); [|exact Hm].
  apply sorted_nth_le; [exact Hs | lia | exact Hk].
Qed.

Lemma sorted_skipn_ge (s : list Q) (k : nat) (m : Q) :
  StronglySorted Qle s -> (k < length s)%nat -> m <= nth k s 0 ->
  Forall (fun u => Qle_bool m u = true) (skipn k s).
Proof.
  intros Hs Hk Hm. apply Forall_forall. intros u Hu.
  apply (In_nth _ _ 0) in Hu. destruct Hu as [i [Hi <-]].
  rewrite length_skipn in Hi. rewrite nth_skipn.
  apply Qle_bool_iff. apply Qle_trans with (nth k s 0); [exact Hm|].
  apply sorted_nth_le; [exact Hs | lia | lia].
Qed.

Lemma nanmedian_half (a : list value) (m : Q) :
  nanmedian a = Fin m ->
  (length (finite_part a) <= 2 * count_le m (finite_part a))%nat
  /\ (length (finite_part a) <= 2 * count_ge m (finite_part a))%nat.
Proof.
  unfold nanmedian, count_le, count_ge.
  rewrite <- (count_sort (fun u => Qle_bool u m)), <- (count_sort (fun u => Qle_bool m u)).
  rewrite <- (length_sort (finite_part a)).
  pose proof (sort_sorted (finite_part a)) as Hs.
  remember (sort (finite_part a)) as s eqn:Es. clear Es.
  destruct s as [|q s']; [discriminate|].
  remember (q :: s') as s eqn:Es.
  assert (Hn : (0 < length s)%nat) by (subst s; simpl; lia).
  clear Es. remember (length s) as n eqn:En.
  assert (Hhalf : (n / 2 < n)%nat) by (apply Nat.div_lt; lia).
  remember (nth (n / 2) s 0) as v eqn:Ev.
  remember (nth (n / 2 - 1) s 0) as u eqn:Eu.
  destruct (Nat.even n) eqn:Even; intros H; injection H as <-.
  - apply Nat.even_spec in Even. destruct Even as [c Hc].
    assert (Hc2 : (n / 2 = c)%nat).
    { rewrite Hc, Nat.mul_comm. apply Nat.div_mul. lia. }
    assert (Hord : u <= v).
    { subst u v. apply sorted_nth_le; [exact Hs | lia | lia]. }
    assert (Hmid1 : nth (n / 2 - 1) s 0 <= (u + v) / 2).
    { rewrite <- Eu. apply Qle_shift_div_l; [reflexivity | lra]. }
    assert (Hmid2 : (u + v) / 2 <= nth (n / 2) s 0).
    { rewrite <- Ev. apply Qle_shift_div_r; [reflexivity | lra]. }
    assert (K1 : (n / 2 - 1 < length s)%nat) by lia.
    assert (K2 : (S (n / 2 - 1) <= length s)%nat) by lia.
    assert (K3 : (n / 2 < length s)%nat) by lia.
    pose proof (count_firstn _ s _ K2 (sorted_firstn_le s _ _ Hs K1 Hmid1)) as C1.
    pose proof (count_skipn (fun u0 => Qle_bool ((u + v) / 2) u0) s _
                  (sorted_skipn_ge s _ _ Hs K3 Hmid2)) as C2.
    rewrite Hc2 in C1, C2. rewrite <- En in C2. split; lia.
  - assert (Hodd : Nat.odd n = true) by (rewrite <- Nat.negb_even, Even; reflexivity).
    apply Nat.odd_spec in Hodd. destruct Hodd as [c Hc].
    assert (Hc2 : (n / 2 = c)%nat).
    { symmetry. apply (Nat.div_unique n 2 c 1); lia. }
    assert (Hmid1 : nth (n / 2) s 0 <= v) by (rewrite <- Ev; apply Qle_refl).
    assert (Hmid2 : v <= nth (n / 2) s 0) by (rewrite <- Ev; apply Qle_refl).
    assert (K1 : (n / 2 < length s)%nat) by lia.
    assert (K2 : (S (n / 2) <= length s)%nat) by lia.
    pose proof (count_firstn _ s _ K2 (sorted_firstn_le s _ _ Hs K1 Hmid1)) as C1.
    pose proof (count_skipn (fun u0 => Qle_bool v u0) s _
                  (sorted_skipn_ge s _ _ Hs K1 Hmid2)) as C2.
    rewrite Hc2 in C1, C2. rewrite <- En in C2. split; lia.
Qed.

Section ReducerMedian.

Variable gen_dt_arr : Q -> Q -> Q -> list Q.

(** X25.  Each value the reducer returns is a median of the values present
    in its partition: at least half of them are at most the returned value
    and at least half of them are at least the returned value. *)
Theorem make_hourly_medians_is_median
  (datetimes : list Q) (data : ndarray) (t_first t_last : Q)
  (centers : list Q) (medians : list value) :
  first datetimes = Ok t_first ->
  last datetimes = Ok t_last ->
  make_hourly_medians gen_dt_arr datetimes data = Ok (centers, medians) ->
  exists argsplit,
    Forall2 (first_exceeding datetimes)
            (removelast (tl (gen_dt_arr t_first t_last (1 / 24)))) argsplit
    /\ forall k part m,
        nth_error (split (rows data) argsplit) k = Some part ->
        nth_error medians k = Some (Fin m) ->
        let present := finite_part (concat part) in
        (length present <= 2 * count_le m present)%nat
        /\ (length present <= 2 * count_ge m present)%nat.
Proof.
  intros H0 HN. unfold make_hourly_medians. rewrite H0, HN. cbn [bind].
  destruct (mapM _ _) as [argsplit|] eqn:EM; cbn [bind]; [|discriminate].
  intros H; injection H as <- <-.
  exists argsplit. split.
  - apply mapM_Forall2 in EM. eapply Forall2_impl; [|exact EM].
    intros te i Hi. simpl in Hi. apply first_where_from in Hi.
    destruct Hi as [j [-> Hj]]. exact Hj.
  - intros k part m Hk Hm. rewrite nth_error_map, Hk in Hm. simpl in Hm.
    injection Hm as Hm. now apply nanmedian_half.
Qed.

End ReducerMedian.

Lemma make_hourly_medians_is_median_witness :
  exists argsplit,
    Forall2 (first_exceeding Demo.reducer_times)
            (removelast (tl (Demo.gen_dt_arr 0 14400 (1 / 24)))) argsplit
    /\ forall k part m,
        nth_error (split (rows Demo.reducer_values) argsplit) k = Some part ->
        nth_error [Fin 3; NaN; Fin 0] k = Some (Fin m) ->
        let present := finite_part (concat part) in
        (length present <= 2 * count_le m present)%nat
        /\ (length present <= 2 * count_ge m present)%nat.
Proof.
  apply (make_hourly_medians_is_median Demo.gen_dt_arr
           Demo.reducer_times Demo.reducer_values 0 14400
           [3600 # 2; 10800 # 2; 18000 # 2]).
  - reflexivity.
  - reflexivity.
  - vm_compute. reflexivity.
Defined.

Section SpeedRange.

Variable gen_dt_arr : Q -> Q -> Q -> list Q.
Variable SkyCoord : Type.
Variable create_carrington_trajectory : list Q -> string -> option Q -> SkyCoord.
Variable lon : SkyCoord -> list Q.
Variable download_vr_data : list Q -> string -> list (string * tplot).
Variable ballistically_project : SkyCoord -> Q -> option (list value) -> SkyCoord.
Variable NLMap : Type.
Variable sample_at_coords : NLMap -> SkyCoord -> list value.

(** X26.  Every radial speed the predicted-series builder hands to the
    projector is the default 360 or is at most as large in magnitude as the
    downloaded speeds: when every downloaded value that is present lies
    between [-B] and [B], so does every speed that is not 360 (for L1, whose
    medians are negated, and for every other body). *)
Theorem create_polarity_model_speeds_within_samples
  (model_NL_map : NLMap) (center_date : Q) (body : string) (altitude : Q)
  (interval : list Q) (v : tplot) (out : model_output) (B : Q) :
  determine_carrington_interval gen_dt_arr SkyCoord create_carrington_trajectory
                                lon center_date body = Ok interval ->
  first_variable (download_vr_data interval body) = Ok v ->
  (forall row u, In row (rows (y v)) -> In (Fin u) row -> - B <= u <= B) ->
  create_polarity_model gen_dt_arr SkyCoord create_carrington_trajectory lon
    download_vr_data ballistically_project NLMap sample_at_coords
    model_NL_map center_date body false altitude true = Ok out ->
  exists s vr_arr,
    out = SeriesVr s (Some vr_arr)
    /\ Forall (fun x => exists q, x = Fin q /\ (q = 360 \/ - B <= q <= B)) vr_arr.
Proof.
  intros Hres Hv Hb. unfold create_polarity_model. rewrite Hres. cbn [bind].
  destruct (gen_dt_arr_unpacked gen_dt_arr interval (1 / 24)) as [grid|];
    [|discriminate].
  cbn [bind]. rewrite Hv. cbn [bind].
  assert (Hcol : forall y0, column0 (y v) = Ok y0 ->
                 forall row u, In row (rows (Arr1 y0)) -> In (Fin u) row ->
                               - B <= u <= B).
  { intros y0 Ec row u Hrow Hu. simpl in Hrow. apply in_map_iff in Hrow.
    destruct Hrow as [w [<- Hw]]. destruct Hu as [->|[]].
    destruct (column0_In _ _ _ Ec Hw) as [row' [Hr' Hin']]. now apply (Hb row'). }
  destruct (String.eqb body "L1");
    [|destruct (String.eqb body "stereo-a" || String.eqb body "stereo-b");
      [|destruct (column0 (y v)) as [y0|] eqn:Ec; [cbn [bind]|discriminate]]];
    match goal with
    | |- context [make_hourly_medians gen_dt_arr (x v) ?d] =>
        destruct (make_hourly_medians gen_dt_arr (x v) d) as [[tm vm]|] eqn:Em;
        [|discriminate]
    end;
    cbn [bind];
    match goal with
    | |- context [vr_on_grid ?t ?m grid] =>
        destruct (vr_on_grid t m grid) as [vr|] eqn:Evr; [|discriminate]
    end;
    cbn [bind]; intros H; injection H as <-;
    eexists _, _; (split; [reflexivity|]);
    apply (vr_on_grid_range _ _ _ _ (- B) B) in Evr; try exact Evr.
  - pose proof (make_hourly_medians_range gen_dt_arr _ _ (- B) B _ _ Hb Em) as Hr.
    intros q Hq. apply in_map_iff in Hq. destruct Hq as [m [Hm Hin]].
    rewrite Forall_forall in Hr. specialize (Hr m Hin).
    destruct m as [|p]; [discriminate Hm|]. simpl in Hm. injection Hm as <-. lra.
  - pose proof (make_hourly_medians_range gen_dt_arr _ _ (- B) B _ _ Hb Em) as Hr.
    intros q Hq. rewrite Forall_forall in Hr. now apply (Hr (Fin q)).
  - pose proof (make_hourly_medians_range gen_dt_arr _ _ (- B) B _ _
                  (Hcol y0 eq_refl) Em) as Hr.
    intros q Hq. rewrite Forall_forall in Hr. now apply (Hr (Fin q)).
Qed.

End SpeedRange.

Lemma create_polarity_model_speeds_within_samples_witness :
  exists s vr_arr,
    Demo.get (Series ([], []))
             (Demo.model_builder tt 0 "psp"%string false (5 # 2) true)
    = SeriesVr s (Some vr_arr)
    /\ Forall (fun x => exists q, x = Fin q /\ (q = 360 \/ - (459) <= q <= 459))
              vr_arr.
Proof.
  apply (create_polarity_model_speeds_within_samples Demo.gen_dt_arr (list Q)
           Demo.earth Demo.lon Demo.download_vr_data Demo.ballistically_project
           unit Demo.sample_at_coords tt 0 "psp"%string (5 # 2)
           [-1166400; 1188000]
           (Demo.get {| x := []; y := Arr1 [] |}
              (first_variable (Demo.download_vr_data [-1166400; 1188000] "psp")))
           _ 459).
  - vm_compute. reflexivity.
  - reflexivity.
  - apply bounded_rows. vm_compute. reflexivity.
  - vm_compute. reflexivity.
Defined.
